(** * go-tpm-tools: attestation verification, event-log parsing and TPM
      hash sequencing, embedded from the Go sources.

    The development follows the packages of the repository:
    - [Wel]    : package [wel]    (event types, tagged event data),
    - [Client] : package [client] (hash.go: local hashing and TPM sequences),
    - [Template] : package [client] (template.go: the IDevID/IAK template),
    - [Server] : package [server] (VerifyAttestation and its helpers).

    Conventions.  A Go [uintN]/[intN] is a [Z]; conversions that wrap are
    written out.  Where the width of [int] matters it is a parameter,
    32 or 64 bits.  A [[]byte] is a [list byte].  A Go function returning
    [(T, error)] returns a [result]; a function that can return both a
    value and an error returns a pair of options.  Calls into libraries
    that are not part of the repository (go-tpm, x509, the event-log
    replay) are parameters of the model; the Go standard library and
    [proto.Merge] are modelled after their documented behaviour. *)

From Stdlib Require Import ZArith Lia.
From Stdlib.Strings Require Import Byte.
From stdpp Require Import base option list gmap strings.
From Equations Require Import Equations.

Local Open Scope Z_scope.

(** Go's [(T, error)] with exactly one of the two set. *)
Inductive result (E A : Type) : Type :=
| Ok (a : A)
| Err (e : E).
Arguments Ok {E A} a.
Arguments Err {E A} e.

#[global] Instance byte_eq_decision : EqDecision byte := Byte.byte_eq_dec.

(* ===================================================================== *)
(** * Package wel *)
(* ===================================================================== *)
Module Wel.

(** [type EventType uint32] *)
Definition EventType : Type := Z.

(** BIOS events. *)
Definition PrebootCert          : EventType := 0x00000000.
Definition PostCode             : EventType := 0x00000001.
Definition unused               : EventType := 0x00000002.
Definition NoAction             : EventType := 0x00000003.
Definition Separator            : EventType := 0x00000004.
Definition Action               : EventType := 0x00000005.
Definition EventTag             : EventType := 0x00000006.
Definition SCRTMContents        : EventType := 0x00000007.
Definition SCRTMVersion         : EventType := 0x00000008.
Definition CpuMicrocode         : EventType := 0x00000009.
Definition PlatformConfigFlags  : EventType := 0x0000000A.
Definition TableOfDevices       : EventType := 0x0000000B.
Definition CompactHash          : EventType := 0x0000000C.
Definition Ipl                  : EventType := 0x0000000D.
Definition IplPartitionData     : EventType := 0x0000000E.
Definition NonhostCode          : EventType := 0x0000000F.
Definition NonhostConfig        : EventType := 0x00000010.
Definition NonhostInfo          : EventType := 0x00000011.
Definition OmitBootDeviceEvents : EventType := 0x00000012.

(** EFI events. *)
Definition EFIEventBase               : EventType := 0x80000000.
Definition EFIVariableDriverConfig    : EventType := 0x80000001.
Definition EFIVariableBoot            : EventType := 0x80000002.
Definition EFIBootServicesApplication : EventType := 0x80000003.
Definition EFIBootServicesDriver      : EventType := 0x80000004.
Definition EFIRuntimeServicesDriver   : EventType := 0x80000005.
Definition EFIGPTEvent                : EventType := 0x80000006.
Definition EFIAction                  : EventType := 0x80000007.
Definition EFIPlatformFirmwareBlob    : EventType := 0x80000008.
Definition EFIHandoffTables           : EventType := 0x80000009.
Definition EFIHCRTMEvent              : EventType := 0x80000010.
Definition EFIVariableAuthority       : EventType := 0x800000e0.

(** [var eventTypeNames = map[EventType]string{...}] *)
Definition eventTypeNames : gmap Z string :=
  list_to_map
    [ (PrebootCert,          "Preboot Cert"%string);
      (PostCode,             "POST Code"%string);
      (unused,               "Unused"%string);
      (NoAction,             "No Action"%string);
      (Separator,            "Separator"%string);
      (Action,               "Action"%string);
      (EventTag,             "Event Tag"%string);
      (SCRTMContents,        "S-CRTM Contents"%string);
      (SCRTMVersion,         "S-CRTM Version"%string);
      (CpuMicrocode,         "CPU Microcode"%string);
      (PlatformConfigFlags,  "Platform Config Flags"%string);
      (TableOfDevices,       "Table of Devices"%string);
      (CompactHash,          "Compact Hash"%string);
      (Ipl,                  "IPL"%string);
      (IplPartitionData,     "IPL Partition Data"%string);
      (NonhostCode,          "Non-Host Code"%string);
      (NonhostConfig,        "Non-HostConfig"%string);
      (NonhostInfo,          "Non-Host Info"%string);
      (OmitBootDeviceEvents, "Omit Boot Device Events"%string);
      (EFIEventBase,               "EFI Event Base"%string);
      (EFIVariableDriverConfig,    "EFI Variable Driver Config"%string);
      (EFIVariableBoot,            "EFI Variable Boot"%string);
      (EFIBootServicesApplication, "EFI Boot Services Application"%string);
      (EFIBootServicesDriver,      "EFI Boot Services Driver"%string);
      (EFIRuntimeServicesDriver,   "EFI Runtime Services Driver"%string);
      (EFIGPTEvent,                "EFI GPT Event"%string);
      (EFIAction,                  "EFI Action"%string);
      (EFIPlatformFirmwareBlob,    "EFI Platform Firmware Blob"%string);
      (EFIVariableAuthority,       "EFI Variable Authority"%string);
      (EFIHandoffTables,           "EFI Handoff Tables"%string);
      (EFIHCRTMEvent,              "EFI H-CRTM Event"%string) ].

(** The two errors [UntrustedParseEventType] can build with [fmt.Errorf]:
    "event type not between [0x0, 0x12] or [0x80000000, 0x800000FF]: got %#x"
    and "unknown event type %#x". *)
Inductive EventTypeError : Type :=
| ErrEventTypeNotInRange (et : Z)
| ErrUnknownEventType (et : Z).

(** [func UntrustedParseEventType(et uint32) (EventType, error)].
    The guard is transcribed as written, with [&&] inside each disjunct. *)
Definition UntrustedParseEventType (et : Z) : result EventTypeError EventType :=
  if ((et <? 0x80000000) && (0x800000FF <? et)) || ((et <? 0x0) && (0x12 <? et))
  then Err (ErrEventTypeNotInRange et)
  else match eventTypeNames !! et with
       | None => Err (ErrUnknownEventType et)
       | Some _ => Ok et
       end.

(** The ranges the error message documents. *)
Definition in_BIOS_range (et : Z) : Prop := 0x0 <= et <= 0x12.
Definition in_EFI_range (et : Z) : Prop := 0x80000000 <= et <= 0x800000FF.

(** ** Tagged event data *)

(** [io.EOF] and [io.ErrUnexpectedEOF]. *)
Inductive io_error : Type := io_EOF | io_ErrUnexpectedEOF.

(** A [*bytes.Reader]: the unread part of the slice it was made from. *)
Definition Reader : Type := list byte.
Definition NewReader (d : list byte) : Reader := d.

(** [io.ReadFull(r, buf)] with [len(buf) = n] on a [bytes.Reader]: nothing
    is read for an empty [buf]; [io.EOF] when no byte is left;
    [io.ErrUnexpectedEOF] (the reader drained) when fewer than [n] are. *)
Definition ReadFull (r : Reader) (n : nat) : Reader * result io_error (list byte) :=
  if decide (n = 0%nat) then (r, Ok [])
  else if decide (length r = 0%nat) then (r, Err io_EOF)
  else if decide (length r < n)%nat then ([], Err io_ErrUnexpectedEOF)
  else (drop n r, Ok (take n r)).

Definition byte_Z (b : byte) : Z := Z.of_N (Byte.to_N b).

(** [binary.LittleEndian.Uint32(b)]. *)
Definition LittleEndian_Uint32 (b : list byte) : Z :=
  match b with
  | b0 :: b1 :: b2 :: b3 :: _ =>
      Z.lor (byte_Z b0)
        (Z.lor (Z.shiftl (byte_Z b1) 8)
           (Z.lor (Z.shiftl (byte_Z b2) 16) (Z.shiftl (byte_Z b3) 24)))
  | _ => 0
  end.

(** [header struct { ID uint32; DataLen uint32 }] *)
Record header : Type := { ID : Z; DataLen : Z }.

(** [binary.Read(r, binary.LittleEndian, &header)]: eight bytes. *)
Definition binary_Read_header (r : Reader) : Reader * result io_error header :=
  match ReadFull r 8 with
  | (r', Ok bs) =>
      (r', Ok {| ID := LittleEndian_Uint32 (take 4 bs);
                 DataLen := LittleEndian_Uint32 (drop 4 bs) |})
  | (r', Err e) => (r', Err e)
  end.

(** [binary.Read(r, binary.LittleEndian, &out.Data)] for a byte slice of
    length [n]: the slice is overwritten only when all [n] bytes arrive. *)
Definition binary_Read_bytes (r : Reader) (data : list byte)
  : Reader * list byte * option io_error :=
  match ReadFull r (length data) with
  | (r', Ok bs) => (r', bs, None)
  | (r', Err e) => (r', data, Some e)
  end.

Record TaggedEventData : Type := { ted_ID : Z; ted_Data : list byte }.

(** The width of Go's [int]: 32 or 64 bits, by the architecture the
    package is built for (the module fixes none). *)
Inductive IntSize : Type := IntSize32 | IntSize64.

Definition intBits (w : IntSize) : Z :=
  match w with IntSize32 => 32 | IntSize64 => 64 end.

(** [math.MaxInt], also the greatest length of a slice. *)
Definition maxInt (w : IntSize) : Z := 2 ^ (intBits w - 1) - 1.

(** The conversion [int(v)] of an unsigned integer: its low bits, read
    in two's complement. *)
Definition to_int (w : IntSize) (v : Z) : Z :=
  let m := v mod 2 ^ intBits w in
  if m <=? maxInt w then m else m - 2 ^ intBits w.

(** [make([]byte, n)] for an unsigned [n]: a length that is no [int]
    panics ([None]), before anything is allocated. *)
Definition make_bytes (w : IntSize) (n : Z) : option (list byte) :=
  if n <=? maxInt w then Some (replicate (Z.to_nat n) x00) else None.

Inductive TaggedEventError : Type :=
| ErrReadingHeader (e : io_error)
    (* "reading header: %w" *)
| ErrTaggedEventLen (dataLen : Z) (len : Z)
    (* "tagged event len (%d bytes) larger than data length (%d bytes)" *)
| ErrReadData (e : io_error).
    (* the error of the second binary.Read, returned as it is *)

(** What a call of [ParseTaggedEventData] does: the sizes of the buffers
    [make([]byte, _)] allocates for the Data field, in order, the two
    values it returns ([*TaggedEventData] and [error], each possibly
    nil), and whether it panics instead of returning. *)
Record ParseTaggedEventDataRun : Type :=
  { allocated : list Z;
    returned : option TaggedEventData;
    returned_err : option TaggedEventError;
    panicked : bool }.

(** [func ParseTaggedEventData(d []byte)], returning a pointer and an
    error, on a build whose [int] has the width [w].  The guard compares
    [int(header.DataLen)], which is negative on a 32-bit build for a
    [DataLen] from 2^31 on; [make] then gets the unconverted [DataLen]. *)
Definition ParseTaggedEventData (w : IntSize) (d : list byte)
  : ParseTaggedEventDataRun :=
  let r := NewReader d in
  match binary_Read_header r with
  | (_, Err e) =>
      {| allocated := []; returned := None;
         returned_err := Some (ErrReadingHeader e); panicked := false |}
  | (r, Ok header) =>
      if Z.of_nat (length d) <? to_int w (DataLen header) then
        {| allocated := []; returned := None;
           returned_err :=
             Some (ErrTaggedEventLen (DataLen header) (Z.of_nat (length d)));
           panicked := false |}
      else
        match make_bytes w (DataLen header) with
        | None =>
            {| allocated := []; returned := None; returned_err := None;
               panicked := true |}
        | Some data =>
            let '(_, data', e) := binary_Read_bytes r data in
            {| allocated := [DataLen header];
               returned := Some {| ted_ID := ID header; ted_Data := data' |};
               returned_err := ErrReadData <$> e;
               panicked := false |}
        end
  end.

(** ** Printing an event type *)

Import Stdlib.Strings.Ascii.

(** The digit table of package fmt. *)
Definition ldigits : string := "0123456789abcdefx"%string.

Definition ldigit (d : Z) : ascii :=
  match String.get (Z.to_nat d) ldigits with
  | Some c => c
  | None => "0"%char
  end.

(** The verb [%x] on an unsigned integer, as [fmt] writes it: the low
    four bits give the last digit while sixteen or more remains, then the
    leading digit; nothing is padded. *)
Equations? fmt_x (u : Z) (buf : string) : string by wf (Z.to_nat (Z.log2 u)) lt :=
  fmt_x u buf :=
    match decide (16 <= u) with
    | left _ => fmt_x (Z.shiftr u 4) (String (ldigit (Z.land u 0xF)) buf)
    | right _ => String (ldigit u) buf
    end.
Proof.
  rewrite Z.log2_shiftr by lia.
  assert (4 <= Z.log2 u) by (apply (Z.log2_le_pow2 u 4); lia).
  lia.
Qed.

(** [func (e EventType) String() string] *)
Definition EventType_String (e : EventType) : string :=
  match eventTypeNames !! e with
  | Some s => s
  | None => ("EventType(0x" ++ fmt_x e "" ++ ")")%string
  end.

(** ** Writing a tagged event *)

(** The conversion [byte(v)] of an unsigned integer. *)
Definition byte_of_Z (v : Z) : byte :=
  match Byte.of_N (Z.to_N (v mod 256)) with
  | Some b => b
  | None => x00
  end.

(** [binary.LittleEndian.PutUint32], giving the four bytes. *)
Definition LittleEndian_PutUint32 (v : Z) : list byte :=
  [byte_of_Z v; byte_of_Z (Z.shiftr v 8); byte_of_Z (Z.shiftr v 16);
   byte_of_Z (Z.shiftr v 24)].

(** The bytes of a TCG_PCClientTaggedEventStruct, the layout
    [ParseTaggedEventData] reads: the id, the length of the data, the
    data. *)
Definition TaggedEventData_bytes (t : TaggedEventData) : list byte :=
  LittleEndian_PutUint32 (ted_ID t)
    ++ LittleEndian_PutUint32 (Z.of_nat (length (ted_Data t)))
    ++ ted_Data t.

(** Reading hexadecimal digits back, to state that [fmt_x] loses nothing. *)
Definition digit_value (c : ascii) : Z :=
  let n := Z.of_N (N_of_ascii c) in
  if (48 <=? n) && (n <=? 57) then n - 48 else n - 87.

Fixpoint read_x (s : string) (acc : Z) : Z :=
  match s with
  | EmptyString => acc
  | String c s' => read_x s' (16 * acc + digit_value c)
  end.

End Wel.

(* ===================================================================== *)
(** * Names shared with go-tpm and the Go standard library *)
(* ===================================================================== *)

(** An [error] value of a library outside the repository: its message. *)
Definition error : Type := string.

Module Tpm2.

(** [type Algorithm uint16] and the TPM_ALG_ID values used by the code. *)
Definition Algorithm : Type := Z.
Definition AlgSHA1   : Algorithm := 0x0004.
Definition AlgSHA256 : Algorithm := 0x000B.
Definition AlgSHA384 : Algorithm := 0x000C.
Definition AlgSHA512 : Algorithm := 0x000D.
Definition AlgNull   : Algorithm := 0x0010.

(** [tpmutil.Handle], a uint32. *)
Definition Handle : Type := Z.

(** [tpm2.Ticket] and [tpm2.HashValue], kept as the device returns them. *)
Record Ticket : Type := { ticket_Hierarchy : Handle; ticket_Digest : list byte }.
Record HashValue : Type := { hv_Alg : Algorithm; hv_Value : list byte }.

End Tpm2.

(* ===================================================================== *)
(** * Package client (hash.go) *)
(* ===================================================================== *)
Module Client.
Import Tpm2.

Definition maxBytesBufferSize : Z := 1024 * 1024.
Definition maxDigestBufferSize : nat := 1024%nat.

(** A [*bytes.Buffer]: its unread bytes. *)
Definition Buffer : Type := list byte.
Definition ByteSliceToBuffer (data : list byte) : Buffer := data.
Definition Buffer_Len (b : Buffer) : nat := length b.
(** [b.Next(n)]: the next [n] bytes, or all of them when fewer are left,
    and the buffer advanced past them. *)
Definition Buffer_Next (b : Buffer) (n : nat) : list byte * Buffer :=
  (take n b, drop n b).
Definition feedDataByChunks (dataBuffer : Buffer) : list byte * Buffer :=
  Buffer_Next dataBuffer maxDigestBufferSize.

(** [crypto.Hash], a uint. *)
Definition crypto_Hash : Type := Z.

(** A [HashResolver] yields an optional hash and an optional device. *)
Definition HashResolver (Dev : Type) : Type := option crypto_Hash * option Dev.

(** The Go library side: [tpm2.HashToAlgorithm] and the [hash.Hash] that
    [crypto.Hash.New] returns ([None]: the function is not linked in and
    [New] panics).  [Write] absorbs its bytes one after the other and never
    fails; [Sum(b)] appends the digest of the absorbed bytes to [b]. *)
Class Crypto (hstate : Type) : Type :=
  { HashToAlgorithm : crypto_Hash -> result error Algorithm;
    hash_New : crypto_Hash -> option hstate;
    hash_absorb : hstate -> byte -> hstate;
    hash_digest : hstate -> list byte }.

Definition hash_Write {hstate} `{Crypto hstate} (s : hstate) (p : list byte) : hstate :=
  fold_left hash_absorb p s.
Definition hash_Sum {hstate} `{Crypto hstate} (s : hstate) (b : list byte) : list byte :=
  b ++ hash_digest s.

(** The go-tpm commands the file calls, as transitions of the world [W]
    the device lives in.  The device argument may be nil ([None]). *)
Class Tpm2Device (W Dev : Type) : Type :=
  { tpm2_Hash : option Dev -> Algorithm -> list byte -> Handle ->
                W -> W * result error (list byte * option Ticket);
    HashSequenceStart : option Dev -> string -> Algorithm ->
                W -> W * result error Handle;
    SequenceUpdate : option Dev -> string -> Handle -> list byte ->
                W -> W * option error;
    SequenceComplete : option Dev -> string -> Handle -> Handle -> list byte ->
                W -> W * result error (list byte * option Ticket);
    EventSequenceComplete : option Dev -> string -> string -> Handle -> Handle ->
                list byte -> W -> W * result error (list HashValue) }.

(** The commands a call issues, in order. *)
Inductive Command : Type :=
| CmdHash (alg : Algorithm) (data : list byte) (hierarchy : Handle)
| CmdHashSequenceStart (auth : string) (alg : Algorithm)
| CmdSequenceUpdate (auth : string) (seq : Handle) (chunk : list byte)
| CmdSequenceComplete (auth : string) (seq hierarchy : Handle) (buf : list byte)
| CmdEventSequenceComplete (pcrAuth seqAuth : string) (pcr seq : Handle)
    (buf : list byte).

(** How a call ends: it returns values with a nil error, returns an
    error, or panics (a nil pointer is dereferenced). *)
Inductive outcome (A : Type) : Type :=
| Return (a : A)
| Fail (e : error)
| Panic.
Arguments Return {A} a.
Arguments Fail {A} e.
Arguments Panic {A}.

Section Hashing.
Context {hstate W Dev : Type} `{!Crypto hstate} `{!Tpm2Device W Dev}.

(** The state threaded through a call: the world and the commands issued. *)
Record St : Type := { world : W; issued : list Command }.

Definition M (A : Type) : Type := St -> St * outcome A.

Definition ret {A} (a : A) : M A := fun s => (s, Return a).
Definition bind {A B} (m : M A) (k : A -> M B) : M B :=
  fun s => match m s with
           | (s', Return a) => k a s'
           | (s', Fail e) => (s', Fail e)
           | (s', Panic) => (s', Panic)
           end.
Definition panic {A} : M A := fun s => (s, Panic).
Definition of_result {A} (r : result error A) : M A :=
  fun s => (s, match r with Ok a => Return a | Err e => Fail e end).
Definition of_error (r : option error) : outcome unit :=
  match r with None => Return tt | Some e => Fail e end.
Definition to_outcome {A} (r : result error A) : outcome A :=
  match r with Ok a => Return a | Err e => Fail e end.

(** Issue one command: record it and let the device act on the world. *)
Definition issue {R A} (c : Command) (f : W -> W * R) (k : R -> outcome A) : M A :=
  fun s => let '(w', r) := f (world s) in
           ({| world := w'; issued := issued s ++ [c] |}, k r).

Notation "x <- m ;; k" := (bind m (fun x => k))
  (at level 100, m at next level, right associativity).
Notation "m ;;; k" := (bind m (fun _ => k))
  (at level 100, right associativity).

(** The loop shared, word for word, by [HashWithSequencing] and
    [EventWithSequencing]:
    [for k := true; k; k = dataBuffer.Len() > 0 { err = SequenceUpdate(...,
    dataBuffer.Next(maxDigestBufferSize)); if err != nil { return } }]. *)
Equations? sequenceUpdateLoop (device : option Dev) (sequenceAuthorization : string)
    (sequenceHandle : Handle) (dataBuffer : Buffer) : M unit
    by wf (length dataBuffer) lt :=
  sequenceUpdateLoop device sequenceAuthorization sequenceHandle dataBuffer :=
    let next := Buffer_Next dataBuffer maxDigestBufferSize in
    bind (issue (CmdSequenceUpdate sequenceAuthorization sequenceHandle next.1)
            (SequenceUpdate device sequenceAuthorization sequenceHandle next.1)
            of_error)
         (fun _ => match decide (0 < Buffer_Len next.2)%nat with
                   | left _ =>
                       sequenceUpdateLoop device sequenceAuthorization
                         sequenceHandle next.2
                   | right _ => ret tt
                   end).
Proof.
  unfold Buffer_Len in *. cbn in *. rewrite length_drop in *. lia.
Qed.

(** [alg] as both functions resolve it from the resolver's hash. *)
Definition resolveAlg (h : option crypto_Hash) : M Algorithm :=
  match h with
  | Some h' => of_result (HashToAlgorithm h')
  | None => ret AlgNull
  end.

(** What [HashWithSequencing] does before its loop: resolve [alg], and
    start a sequence when there is a device and a hierarchy handle
    ([sequenceHandle] keeps its zero value otherwise). *)
Definition startHashSequence (h : option crypto_Hash) (device : option Dev)
    (sequenceAuthorization : string) (hierarchyHandle : option Handle) : M Handle :=
  alg <- resolveAlg h ;;
  match device, hierarchyHandle with
  | Some _, Some _ =>
      issue (CmdHashSequenceStart sequenceAuthorization alg)
        (HashSequenceStart device sequenceAuthorization alg) to_outcome
  | _, _ => ret 0
  end.

(** [func HashWithSequencing(data, resolver, sequenceAuthorization,
    hierarchyHandle)].  The last line dereferences [hierarchyHandle]
    before the call. *)
Definition HashWithSequencing (data : list byte) (resolver : HashResolver Dev)
    (sequenceAuthorization : string) (hierarchyHandle : option Handle)
  : M (list byte * option Ticket) :=
  let dataBuffer := ByteSliceToBuffer data in
  let '(h, device) := resolver in
  sequenceHandle <- startHashSequence h device sequenceAuthorization hierarchyHandle ;;
  sequenceUpdateLoop device sequenceAuthorization sequenceHandle dataBuffer ;;;
  match hierarchyHandle with
  | None => panic
  | Some hierarchy =>
      issue (CmdSequenceComplete sequenceAuthorization sequenceHandle hierarchy [])
        (SequenceComplete device sequenceAuthorization sequenceHandle hierarchy [])
        to_outcome
  end.

(** What [EventWithSequencing] does before its loop: as above, but a
    device alone is enough to start the sequence. *)
Definition startEventSequence (h : option crypto_Hash) (device : option Dev)
    (sequenceAuthorization : string) : M Handle :=
  alg <- resolveAlg h ;;
  match device with
  | Some _ =>
      issue (CmdHashSequenceStart sequenceAuthorization alg)
        (HashSequenceStart device sequenceAuthorization alg) to_outcome
  | None => ret 0
  end.

(** [func EventWithSequencing(data, resolver, sequenceAuthorization,
    pcrAuthorization, pcrHandle)]. *)
Definition EventWithSequencing (data : list byte) (resolver : HashResolver Dev)
    (sequenceAuthorization pcrAuthorization : string) (pcrHandle : Handle)
  : M (list HashValue) :=
  let dataBuffer := ByteSliceToBuffer data in
  let '(h, device) := resolver in
  sequenceHandle <- startEventSequence h device sequenceAuthorization ;;
  sequenceUpdateLoop device sequenceAuthorization sequenceHandle dataBuffer ;;;
  issue (CmdEventSequenceComplete pcrAuthorization sequenceAuthorization
           pcrHandle sequenceHandle [])
    (EventSequenceComplete device pcrAuthorization sequenceAuthorization
       pcrHandle sequenceHandle [])
    to_outcome.

(** [func Hash(data, resolver, hierarchyHandle, sequenceAuthorization)]. *)
Definition Hash (data : list byte) (resolver : HashResolver Dev)
    (hierarchyHandle : option Handle) (sequenceAuthorization : option string)
  : M (list byte * option Ticket) :=
  let '(h, device) := resolver in
  match sequenceAuthorization with
  | Some auth => HashWithSequencing data resolver auth hierarchyHandle
  | None =>
      match device, hierarchyHandle with
      | Some _, Some hierarchy =>
          alg <- resolveAlg h ;;
          issue (CmdHash alg data hierarchy)
            (tpm2_Hash device alg data hierarchy) to_outcome
      | _, _ =>
          (* OS library: h.New(), Write, Sum(nil) *)
          match h with
          | None => panic
          | Some h' =>
              match hash_New h' with
              | None => panic
              | Some alg => ret (hash_Sum (hash_Write alg data) [], None)
              end
          end
      end
  end.

(** The chunks a command trace fed with [SequenceUpdate], in order. *)
Definition updateChunks (cs : list Command) : list (list byte) :=
  omap (fun c => match c with
                 | CmdSequenceUpdate _ _ chunk => Some chunk
                 | _ => None
                 end) cs.

End Hashing.

(** ** A simulated TPM whose sequences are incremental hashes

    [alg_init alg] is the initial state of the hash the simulated TPM
    runs for [alg] ([None]: the algorithm is not implemented).  A
    sequence object remembers its authorization and the state of its
    hash; an update absorbs the chunk, completion absorbs the last buffer,
    releases the sequence and returns the digest with a ticket. *)
Section Simulation.
Context {hstate : Type} `{!Crypto hstate}.
Variable alg_init : Algorithm -> option hstate.

Record SimSeq : Type :=
  { seq_auth : string; seq_alg : Algorithm; seq_state : hstate }.
Record SimTPM : Type := { sequences : gmap Z SimSeq; next_handle : Handle }.

Definition sim_nil : error := "nil TPM handle"%string.
Definition sim_alg : error := "hash algorithm not implemented"%string.
Definition sim_handle : error := "handle is not a sequence object"%string.
Definition sim_auth : error := "authorization failure"%string.

Definition sim_Hash (dev : option unit) (alg : Algorithm) (data : list byte)
    (hierarchy : Handle) (w : SimTPM)
  : SimTPM * result error (list byte * option Ticket) :=
  match dev, alg_init alg with
  | None, _ => (w, Err sim_nil)
  | Some _, None => (w, Err sim_alg)
  | Some _, Some s0 =>
      let digest := hash_digest (hash_Write s0 data) in
      (w, Ok (digest, Some {| ticket_Hierarchy := hierarchy; ticket_Digest := digest |}))
  end.

Definition sim_HashSequenceStart (dev : option unit) (auth : string)
    (alg : Algorithm) (w : SimTPM) : SimTPM * result error Handle :=
  match dev, alg_init alg with
  | None, _ => (w, Err sim_nil)
  | Some _, None => (w, Err sim_alg)
  | Some _, Some s0 =>
      ({| sequences :=
            <[next_handle w :=
                {| seq_auth := auth; seq_alg := alg; seq_state := s0 |}]>
              (sequences w);
          next_handle := next_handle w + 1 |},
       Ok (next_handle w))
  end.

Definition sim_SequenceUpdate (dev : option unit) (auth : string) (h : Handle)
    (chunk : list byte) (w : SimTPM) : SimTPM * option error :=
  match dev, sequences w !! h with
  | None, _ => (w, Some sim_nil)
  | Some _, None => (w, Some sim_handle)
  | Some _, Some sq =>
      if decide (seq_auth sq = auth) then
        ({| sequences :=
              <[h := {| seq_auth := seq_auth sq; seq_alg := seq_alg sq;
                        seq_state := hash_Write (seq_state sq) chunk |}]>
                (sequences w);
            next_handle := next_handle w |},
         None)
      else (w, Some sim_auth)
  end.

Definition sim_SequenceComplete (dev : option unit) (auth : string)
    (h hierarchy : Handle) (buf : list byte) (w : SimTPM)
  : SimTPM * result error (list byte * option Ticket) :=
  match dev, sequences w !! h with
  | None, _ => (w, Err sim_nil)
  | Some _, None => (w, Err sim_handle)
  | Some _, Some sq =>
      if decide (seq_auth sq = auth) then
        let digest := hash_digest (hash_Write (seq_state sq) buf) in
        ({| sequences := delete h (sequences w); next_handle := next_handle w |},
         Ok (digest,
             Some {| ticket_Hierarchy := hierarchy; ticket_Digest := digest |}))
      else (w, Err sim_auth)
  end.

Definition sim_EventSequenceComplete (dev : option unit) (pcrAuth auth : string)
    (pcr h : Handle) (buf : list byte) (w : SimTPM)
  : SimTPM * result error (list HashValue) :=
  match dev, sequences w !! h with
  | None, _ => (w, Err sim_nil)
  | Some _, None => (w, Err sim_handle)
  | Some _, Some sq =>
      if decide (seq_auth sq = auth) then
        ({| sequences := delete h (sequences w); next_handle := next_handle w |},
         Ok [ {| hv_Alg := seq_alg sq;
                 hv_Value := hash_digest (hash_Write (seq_state sq) buf) |} ])
      else (w, Err sim_auth)
  end.

Definition SimDevice : Tpm2Device SimTPM unit :=
  {| tpm2_Hash := sim_Hash;
     HashSequenceStart := sim_HashSequenceStart;
     SequenceUpdate := sim_SequenceUpdate;
     SequenceComplete := sim_SequenceComplete;
     EventSequenceComplete := sim_EventSequenceComplete |}.

End Simulation.

(** ** A small library instance to run the model on

    A toy hash (a rolling sum modulo 256, one digest byte) under the names
    of Go's [crypto.SHA1] (3), [crypto.SHA256] (5), [crypto.SHA384] (6)
    and [crypto.SHA512] (7); every other hash is unknown to the TPM. *)
Definition toy_HashToAlgorithm (h : crypto_Hash) : result error Algorithm :=
  if h =? 3 then Ok AlgSHA1
  else if h =? 5 then Ok AlgSHA256
  else if h =? 6 then Ok AlgSHA384
  else if h =? 7 then Ok AlgSHA512
  else Err "go hash algorithm has no TPM2 algorithm"%string.

Definition toy_absorb (s : Z) (b : byte) : Z :=
  (31 * s + Z.of_N (Byte.to_N b)) mod 256.

Definition toy_digest (s : Z) : list byte :=
  match Byte.of_N (Z.to_N (s mod 256)) with Some b => [b] | None => [] end.

Definition ToyCrypto : Crypto Z :=
  {| HashToAlgorithm := toy_HashToAlgorithm;
     hash_New := fun h => if (3 <=? h) && (h <=? 7) then Some h else None;
     hash_absorb := toy_absorb;
     hash_digest := toy_digest |}.

Definition toy_alg_init (alg : Algorithm) : option Z :=
  if alg =? AlgSHA1 then Some 3
  else if alg =? AlgSHA256 then Some 5
  else if alg =? AlgSHA384 then Some 6
  else if alg =? AlgSHA512 then Some 7
  else None.

Definition toy_world : SimTPM (hstate := Z) :=
  {| sequences := ∅; next_handle := 0x80000000 |}.

(** ** The chunks of a buffer

    What the two sequencing loops feed, written without a device: the
    first [n] chunks of a buffer, each the next [maxDigestBufferSize]
    bytes or what is left of them, and the number of chunks the loops
    cut [len] bytes into (one for an empty buffer). *)
Fixpoint chunks (n : nat) (buf : list byte) : list (list byte) :=
  match n with
  | O => []
  | S n' => take maxDigestBufferSize buf :: chunks n' (drop maxDigestBufferSize buf)
  end.

Definition numChunks (len : nat) : nat :=
  Nat.max 1 ((len + (maxDigestBufferSize - 1)) / maxDigestBufferSize).

Definition chunksOf (buf : list byte) : list (list byte) :=
  chunks (numChunks (length buf)) buf.

End Client.

(* ===================================================================== *)
(** * Package client (template.go) *)
(* ===================================================================== *)
Module Template.
Import Tpm2 Client.

(** The go-tpm names the file uses, as go-tpm defines them (TPM_ALG_ID,
    TPM_ECC_CURVE and TPMA_OBJECT values). *)
Definition AlgRSA   : Algorithm := 0x0001.
Definition AlgECDSA : Algorithm := 0x0018.
Definition AlgECC   : Algorithm := 0x0023.
Definition CurveNISTP384 : Z := 0x0004.
Definition CurveNISTP521 : Z := 0x0005.

(** [type KeyProp uint32] *)
Definition FlagFixedTPM            : Z := 0x00000002.
Definition FlagFixedParent         : Z := 0x00000010.
Definition FlagSensitiveDataOrigin : Z := 0x00000020.
Definition FlagUserWithAuth        : Z := 0x00000040.
Definition FlagAdminWithPolicy     : Z := 0x00000080.
Definition FlagRestricted          : Z := 0x00010000.
Definition FlagSign                : Z := 0x00040000.
Definition FlagSignerDefault : Z :=
  Z.lor FlagSign
    (Z.lor FlagRestricted
       (Z.lor FlagFixedTPM
          (Z.lor FlagFixedParent (Z.lor FlagSensitiveDataOrigin FlagUserWithAuth)))).

(** The parts of [tpm2.Public] the file sets; a nil pointer is [None],
    a nil slice the empty list. *)
Record SigScheme : Type := { sig_Alg : Algorithm; sig_Hash : Algorithm }.
Record ECPoint : Type := { XRaw : list byte; YRaw : list byte }.
Record RSAParams : Type :=
  { rsa_Sign : option SigScheme; rsa_KeyBits : Z; ModulusRaw : list byte }.
Record ECCParams : Type :=
  { ecc_Sign : option SigScheme; CurveID : Z; Point : ECPoint }.
Record Public : Type :=
  { Type_ : Algorithm;
    NameAlg : Algorithm;
    Attributes : Z;
    RSAParameters : option RSAParams;
    ECCParameters : option ECCParams }.

(** [tpm2.Public{}] *)
Definition Public_zero : Public :=
  {| Type_ := 0; NameAlg := 0; Attributes := 0;
     RSAParameters := None; ECCParameters := None |}.

Definition defaultDevIdAuth : bool := false.

(** [func defaultDevIdAttributes(withUserAuth *bool) tpm2.KeyProp].  On a
    nil pointer the function stores the default through it. *)
Definition defaultDevIdAttributes (withUserAuth : option bool) : outcome Z :=
  let kProp := Z.lor (Z.ldiff FlagSignerDefault FlagRestricted) FlagAdminWithPolicy in
  match withUserAuth with
  | None => Panic
  | Some b => if b then Return kProp else Return (Z.ldiff kProp FlagUserWithAuth)
  end.

(** [for i, c := range mod { nMod[i] = c }], from index [i] on: an index
    past the end of [nMod] panics. *)
Fixpoint copy_into (i : nat) (mod_ nMod : list byte) : outcome (list byte) :=
  match mod_ with
  | [] => Return nMod
  | c :: rest =>
      if decide (i < length nMod)%nat then copy_into (S i) rest (<[i := c]> nMod)
      else Panic
  end.

(** [temp.ECCParameters.CurveID = c], through the pointer. *)
Definition set_CurveID (temp : Public) (c : Z) : outcome Public :=
  match ECCParameters temp with
  | None => Panic
  | Some p =>
      Return {| Type_ := Type_ temp; NameAlg := NameAlg temp;
                Attributes := Attributes temp;
                RSAParameters := RSAParameters temp;
                ECCParameters :=
                  Some {| ecc_Sign := ecc_Sign p; CurveID := c; Point := Point p |} |}
  end.

(** The labels ["DEVID"] and ["IAK"] as bytes. *)
Definition devId : list byte := [x44; x45; x56; x49; x44].
Definition iak : list byte := [x49; x41; x4b].

(** The [switch alg] of [IDevIdIak]: [inr] is the [return temp] of the
    default case, [inl] what the other cases leave in [temp] and [nMod]. *)
Definition IDevIdIak_switch (alg : Algorithm) (temp : Public)
  : outcome (Public * list byte) + Public :=
  if alg =? AlgRSA then inl (Return (temp, []))
  else if alg =? AlgSHA256 then
    inl (Return
           ({| Type_ := AlgRSA; NameAlg := AlgSHA256; Attributes := Attributes temp;
               RSAParameters :=
                 Some {| rsa_Sign := None; rsa_KeyBits := 2048; ModulusRaw := [] |};
               ECCParameters := ECCParameters temp |},
            replicate 256 x00))
  else if alg =? AlgECC then
    inl (Return
           ({| Type_ := AlgECC; NameAlg := NameAlg temp; Attributes := Attributes temp;
               RSAParameters := RSAParameters temp;
               ECCParameters :=
                 Some {| ecc_Sign := Some {| sig_Alg := AlgECDSA; sig_Hash := 0 |};
                         CurveID := 0;
                         Point := {| XRaw := []; YRaw := [] |} |} |},
            []))
  else if alg =? AlgSHA384 then
    inl (match set_CurveID
                 {| Type_ := Type_ temp; NameAlg := AlgSHA384;
                    Attributes := Attributes temp;
                    RSAParameters := RSAParameters temp;
                    ECCParameters := ECCParameters temp |} CurveNISTP384 with
         | Return temp' => Return (temp', replicate 384 x00)
         | Fail e => Fail e
         | Panic => Panic
         end)
  else if alg =? AlgSHA512 then
    inl (match set_CurveID
                 {| Type_ := AlgECC; NameAlg := AlgSHA512;
                    Attributes := Attributes temp;
                    RSAParameters := RSAParameters temp;
                    ECCParameters := ECCParameters temp |} CurveNISTP521 with
         | Return temp' => Return (temp', replicate 512 x00)
         | Fail e => Fail e
         | Panic => Panic
         end)
  else inr temp.

(** [func IDevIdIak(alg tpm2.Algorithm, createIak bool, withUserAuth *bool)
    tpm2.Public] *)
Definition IDevIdIak (alg : Algorithm) (createIak : bool)
    (withUserAuth : option bool) : outcome Public :=
  let temp := Public_zero in
  let mod_ := if createIak then iak else devId in
  match IDevIdIak_switch alg temp with
  | inr temp => Return temp
  | inl (Fail e) => Fail e
  | inl Panic => Panic
  | inl (Return (temp, nMod)) =>
      match defaultDevIdAttributes withUserAuth with
      | Fail e => Fail e
      | Panic => Panic
      | Return attrs =>
          match copy_into 0 mod_ nMod with
          | Fail e => Fail e
          | Panic => Panic
          | Return nMod =>
              match RSAParameters temp with
              | Some rsa =>
                  Return {| Type_ := Type_ temp; NameAlg := NameAlg temp;
                            Attributes := attrs;
                            RSAParameters :=
                              Some {| rsa_Sign := rsa_Sign rsa;
                                      rsa_KeyBits := rsa_KeyBits rsa;
                                      ModulusRaw := nMod |};
                            ECCParameters := ECCParameters temp |}
              | None =>
                  let l := (length nMod / 8)%nat in
                  match ECCParameters temp with
                  | None => Panic
                  | Some ecc =>
                      if decide (l + 1 <= length nMod)%nat then
                        Return {| Type_ := Type_ temp; NameAlg := NameAlg temp;
                                  Attributes := attrs;
                                  RSAParameters := None;
                                  ECCParameters :=
                                    Some {| ecc_Sign := ecc_Sign ecc;
                                            CurveID := CurveID ecc;
                                            Point :=
                                              {| XRaw := take l nMod;
                                                 YRaw := drop (l + 1) nMod |} |} |}
                      else Panic
                  end
              end
          end
      end
  end.

End Template.

(* ===================================================================== *)
(** * Package server (VerifyAttestation) *)
(* ===================================================================== *)
Module Server.
Import Tpm2.

(** [var supportedHashAlgs], in their preferred order of use. *)
Definition supportedHashAlgs : list Algorithm :=
  [AlgSHA512; AlgSHA384; AlgSHA256; AlgSHA1].

(** ** Public keys

    A [crypto.PublicKey] is an interface value; the code tells three
    dynamic types apart: [*rsa.PublicKey], [*ecdsa.PublicKey] and
    everything else. *)
Inductive Curve : Type := P224 | P256 | P384 | P521.

Inductive PublicKey : Type :=
| RSAPublicKey (N E : Z)
| ECDSAPublicKey (curve : Curve) (X Y : Z)
| OtherPublicKey (tag : Z).

Definition Curve_eqb (c1 c2 : Curve) : bool :=
  match c1, c2 with
  | P224, P224 | P256, P256 | P384, P384 | P521, P521 => true
  | _, _ => false
  end.

(** [Equal] of an [*rsa.PublicKey]: the other key must be an RSA key with the
    same modulus and exponent. *)
Definition rsa_Equal (N E : Z) (x : PublicKey) : bool :=
  match x with
  | RSAPublicKey N' E' => (N =? N') && (E =? E')
  | _ => false
  end.

(** [Equal] of an [*ecdsa.PublicKey]: the other key must be an ECDSA key with
    the same point on the same curve. *)
Definition ecdsa_Equal (curve : Curve) (X Y : Z) (x : PublicKey) : bool :=
  match x with
  | ECDSAPublicKey curve' X' Y' => (X =? X') && (Y =? Y') && Curve_eqb curve curve'
  | _ => false
  end.

(** [func pubKeysEqual(k1, k2 crypto.PublicKey) bool] *)
Definition pubKeysEqual (k1 k2 : PublicKey) : bool :=
  match k1 with
  | RSAPublicKey N E => rsa_Equal N E k2
  | ECDSAPublicKey curve X Y => ecdsa_Equal curve X Y k2
  | _ => false
  end.

(** ** Protocol-buffer messages

    [tpmpb.PCRs] and [tpmpb.Quote]; [hash] is the [HashAlgo] enum, an int32.
    A quote's [pcrs] pointer may be nil. *)
Record PCRs : Type := { pcrs_hash : Z; pcrs_values : list (Z * list byte) }.
Record Quote : Type :=
  { quote_quote : list byte; quote_raw_sig : list byte; quote_pcrs : option PCRs }.

Definition Quote_GetPcrs (q : Quote) : option PCRs := quote_pcrs q.
(** [GetHash] on a nil message is the zero value. *)
Definition PCRs_GetHash (p : option PCRs) : Z :=
  match p with Some p' => pcrs_hash p' | None => 0 end.

(** The conversion [tpm2.Algorithm(x)] of an int32 keeps the low 16 bits. *)
Definition to_Algorithm (x : Z) : Algorithm := x mod 2 ^ 16.

Definition quoteAlg (q : Quote) : Algorithm :=
  to_Algorithm (PCRs_GetHash (Quote_GetPcrs q)).

(** A message as [proto.Merge] sees it: its populated leaves, each found
    by the field numbers leading to it.  A leaf is a singular scalar with
    its value, or a list field with its elements (kept encoded). *)
Inductive FieldValue : Type :=
| Scalar (v : list byte)
| Repeated (elems : list (list byte)).

Abbreviation MachineState := (gmap (list Z) FieldValue).

(** [proto.Merge(dst, src)] as google.golang.org/protobuf documents it:
    populated scalar fields of [src] are copied to [dst], singular
    messages are merged field by field, and the elements of every list
    field of [src] are appended to the list of [dst].  The result is the
    new content of [dst]. *)
Definition merge_field (d s : FieldValue) : FieldValue :=
  match d, s with
  | Repeated ds, Repeated ss => Repeated (ds ++ ss)
  | _, _ => s
  end.

Definition proto_Merge (dst src : MachineState) : MachineState :=
  union_with (fun d s => Some (merge_field d s)) dst src.

Record Attestation : Type :=
  { AkPub : list byte;
    AkCert : list byte;
    Quotes : list Quote;
    EventLog : list byte;
    CanonicalEventLog : list byte }.

(** ** What the package calls outside this file

    go-tpm ([DecodePublic], [Public.Key]), the repository's [internal]
    package ([GetSigningHashAlg], [VerifyQuote]), the event-log replay of
    package server ([parsePCClientEventLog], [parseCanonicalEventLog]) and
    x509 ([ParseCertificate], [Certificate.Verify] with the options
    [validateAkCert] fixes). *)
Class Deps : Type :=
  { Public : Type;
    Certificate : Type;
    CertPool : Type;
    DecodePublic : list byte -> result error Public;
    Public_Key : Public -> result error PublicKey;
    GetSigningHashAlg : Public -> result error Algorithm;
    VerifyQuote : Quote -> PublicKey -> list byte -> option error;
    parsePCClientEventLog : list byte -> option PCRs -> result error MachineState;
    parseCanonicalEventLog : list byte -> option PCRs -> result error MachineState;
    ParseCertificate : list byte -> result error Certificate;
    Certificate_Verify : Certificate -> CertPool -> CertPool -> option error }.

(** ** Errors, one constructor per message the file formats *)

Inductive AkTrustError : Type :=
| ErrNoMechanism        (* "no mechanism for AK verification provided" *)
| ErrAKNotTrusted.      (* "AK public key is not trusted" *)

Inductive AkCertError : Type :=
| ErrAKCertEmpty                 (* "AKCert is empty" *)
| ErrParseAKCert (e : error)     (* "failed to parse AKCert: %v" *)
| ErrVerifyAKCert (e : error).   (* "failed to verify AKCert against trusted roots: %v" *)

Inductive HashAlgError : Type :=
| ErrSHA1NotAllowed              (* "SHA-1 is not allowed for verification (...)" *)
| ErrUnsupportedHashAlg (hash : Algorithm). (* "unsupported hash algorithm: %v" *)

Inductive VerifyError : Type :=
| ErrDecodeAKPublicArea (e : error)   (* "failed to decode AK public area: %w" *)
| ErrGetAKPublicKey (e : error)       (* "failed to get AK public key: %w" *)
| ErrUntrustedAK (e : AkCertError)
    (* "failed to validate attestation key: AKPub is untrusted and %v" *)
| ErrBadAKPublicArea (e : error)      (* "bad AK public area: %w" *)
| ErrInAKPublicArea (e : HashAlgError) (* "in AK public area: %w" *)
| ErrVerifyQuote (e : error)          (* "failed to verify quote: %w" *)
| ErrPCClientEventLog (e : error)
    (* "failed to validate the PCClient event log: %w" *)
| ErrCanonicalEventLog (e : error)
    (* "failed to validate the Canonical event log: %w" *)
| ErrWhenVerifyingPCRs (e : HashAlgError) (* "when verifying PCRs: %w" *)
| ErrNoSupportedQuote.
    (* "attestation does not contain a supported quote" *)

Section Verify.
Context {D : Deps}.

(** [type VerifyOpts struct] *)
Record VerifyOpts : Type :=
  { Nonce : list byte;
    TrustedAKs : list PublicKey;
    AllowSHA1 : bool;
    TrustedRootCerts : CertPool;
    IntermediateCerts : CertPool }.

(** [func checkAkTrusted(ak crypto.PublicKey, opts VerifyOpts) error] *)
Definition checkAkTrusted (ak : PublicKey) (opts : VerifyOpts) : option AkTrustError :=
  if decide (length (TrustedAKs opts) = 0%nat) then Some ErrNoMechanism
  else if existsb (fun trusted => pubKeysEqual ak trusted) (TrustedAKs opts)
       then None
       else Some ErrAKNotTrusted.

(** [func validateAkCert(akCertBytes, intermediates, roots) error] *)
Definition validateAkCert (akCertBytes : list byte)
    (intermediates roots : CertPool) : option AkCertError :=
  if decide (length akCertBytes = 0%nat) then Some ErrAKCertEmpty
  else match ParseCertificate akCertBytes with
       | Err err => Some (ErrParseAKCert err)
       | Ok akCert =>
           match Certificate_Verify akCert roots intermediates with
           | Some err => Some (ErrVerifyAKCert err)
           | None => None
           end
       end.

(** [func checkHashAlgSupported(hash tpm2.Algorithm, opts VerifyOpts) error] *)
Definition checkHashAlgSupported (hash : Algorithm) (opts : VerifyOpts)
  : option HashAlgError :=
  if (hash =? AlgSHA1) && negb (AllowSHA1 opts) then Some ErrSHA1NotAllowed
  else if existsb (fun alg => hash =? alg) supportedHashAlgs then None
  else Some (ErrUnsupportedHashAlg hash).

(** The inner loop of [supportedQuotes]: append the first quote whose
    PCR hash is [alg], then [break]. *)
Fixpoint appendFirstQuote (alg : Algorithm) (quotes out : list Quote) : list Quote :=
  match quotes with
  | [] => out
  | quote :: rest =>
      if quoteAlg quote =? alg then out ++ [quote]
      else appendFirstQuote alg rest out
  end.

(** [func supportedQuotes(quotes []*tpmpb.Quote) []*tpmpb.Quote] *)
Definition supportedQuotes (quotes : list Quote) : list Quote :=
  fold_left (fun out alg => appendFirstQuote alg quotes out) supportedHashAlgs [].

(** The body of the loop of [VerifyAttestation] for one quote: [Ok] is
    [return celState, nil]; [Err e] is [lastErr = e; continue]. *)
Definition tryQuote (attestation : Attestation) (opts : VerifyOpts)
    (akPubKey : PublicKey) (quote : Quote) : result VerifyError MachineState :=
  match VerifyQuote quote akPubKey (Nonce opts) with
  | Some err => Err (ErrVerifyQuote err)
  | None =>
      let pcrs := Quote_GetPcrs quote in
      match parsePCClientEventLog (EventLog attestation) pcrs with
      | Err err => Err (ErrPCClientEventLog err)
      | Ok state =>
          match parseCanonicalEventLog (CanonicalEventLog attestation) pcrs with
          | Err err => Err (ErrCanonicalEventLog err)
          | Ok celState =>
              let celState := proto_Merge celState state in
              let pcrHashAlg := to_Algorithm (PCRs_GetHash pcrs) in
              match checkHashAlgSupported pcrHashAlg opts with
              | Some err => Err (ErrWhenVerifyingPCRs err)
              | None => Ok celState
              end
          end
      end
  end.

(** The loop over the candidate quotes and the two returns after it.
    The first component lists the quotes the body ran on, in order. *)
Fixpoint quoteLoop (attestation : Attestation) (opts : VerifyOpts)
    (akPubKey : PublicKey) (quotes : list Quote) (lastErr : option VerifyError)
  : list Quote * result VerifyError MachineState :=
  match quotes with
  | [] =>
      ([], match lastErr with
           | Some e => Err e
           | None => Err ErrNoSupportedQuote
           end)
  | quote :: rest =>
      match tryQuote attestation opts akPubKey quote with
      | Ok celState => ([quote], Ok celState)
      | Err e =>
          let '(tried, r) := quoteLoop attestation opts akPubKey rest (Some e) in
          (quote :: tried, r)
      end
  end.

(** What follows trust resolution in [VerifyAttestation]. *)
Definition verifyQuotes (attestation : Attestation) (opts : VerifyOpts)
    (akPubArea : Public) (akPubKey : PublicKey)
  : list Quote * result VerifyError MachineState :=
  match GetSigningHashAlg akPubArea with
  | Err err => ([], Err (ErrBadAKPublicArea err))
  | Ok signHashAlg =>
      match checkHashAlgSupported signHashAlg opts with
      | Some err => ([], Err (ErrInAKPublicArea err))
      | None =>
          quoteLoop attestation opts akPubKey
            (supportedQuotes (Quotes attestation)) None
      end
  end.

(** [func VerifyAttestation(attestation, opts)], with the quotes it tried. *)
Definition VerifyAttestation (attestation : Attestation) (opts : VerifyOpts)
  : list Quote * result VerifyError MachineState :=
  match DecodePublic (AkPub attestation) with
  | Err err => ([], Err (ErrDecodeAKPublicArea err))
  | Ok akPubArea =>
      match Public_Key akPubArea with
      | Err err => ([], Err (ErrGetAKPublicKey err))
      | Ok akPubKey =>
          match
            match checkAkTrusted akPubKey opts with
            | Some _ =>
                validateAkCert (AkCert attestation) (IntermediateCerts opts)
                  (TrustedRootCerts opts)
            | None => None
            end
          with
          | Some err => ([], Err (ErrUntrustedAK err))
          | None => verifyQuotes attestation opts akPubArea akPubKey
          end
      end
  end.

(** ** The claims in their own words, to compare the code with *)

(** Equality "per key type": two RSA keys with the same modulus and
    exponent, or two ECDSA keys with the same curve and point. *)
Definition spec_keys_equal (ak trusted : PublicKey) : Prop :=
  match ak, trusted with
  | RSAPublicKey N E, RSAPublicKey N' E' => N = N' /\ E = E'
  | ECDSAPublicKey curve X Y, ECDSAPublicKey curve' X' Y' =>
      curve = curve' /\ X = X' /\ Y = Y'
  | _, _ => False
  end.

(** Path (a): some key of [opts.TrustedAKs] equals the AK. *)
Definition spec_AK_listed (opts : VerifyOpts) (ak : PublicKey) : Prop :=
  exists trusted, trusted ∈ TrustedAKs opts /\ spec_keys_equal ak trusted.

(** Path (b): the AK certificate parses and chain-verifies against the
    pools of [opts]. *)
Definition spec_AK_certified (opts : VerifyOpts) (akCert : list byte) : Prop :=
  exists cert,
    ParseCertificate akCert = Ok cert
    /\ Certificate_Verify cert (TrustedRootCerts opts) (IntermediateCerts opts) = None.


(** The first quote, in input order, whose PCR hash is [alg]. *)
Definition firstQuote (alg : Algorithm) (quotes : list Quote) : option Quote :=
  List.find (fun q => quoteAlg q =? alg) quotes.

End Verify.

(** ** A small instance of the outside calls to run the model on

    A public area is two bytes: the RSA modulus and the signing hash.  A
    quote verifies when its quoted bytes are the nonce.  An event log is
    refused when empty (PCClient) and otherwise parsed to a state holding
    the log under field 4, and under field 3 (PCClient, a list) or field
    7.1 (canonical).  A certificate is any non-empty byte string; it
    verifies when the root pool lists it. *)
Definition toy_PCClient (log : list byte) (pcrs : option PCRs)
  : result error MachineState :=
  if decide (log = []) then Err "empty event log"%string
  else Ok (<[ [4] := Scalar log ]> {[ [3] := Repeated [log] ]}).

Definition toy_Canonical (log : list byte) (pcrs : option PCRs)
  : result error MachineState :=
  if decide (log = []) then Ok ∅
  else Ok (<[ [4] := Scalar log ]> {[ [7; 1] := Scalar log ]}).

Definition ToyDeps : Deps :=
  {| Public := Z * Algorithm;
     Certificate := list byte;
     CertPool := list (list byte);
     DecodePublic := fun b =>
       match b with
       | [k; a] => Ok (Wel.byte_Z k, Wel.byte_Z a)
       | _ => Err "decoding failed"%string
       end;
     Public_Key := fun p => Ok (RSAPublicKey p.1 65537);
     GetSigningHashAlg := fun p => Ok p.2;
     VerifyQuote := fun q ak nonce =>
       if decide (quote_quote q = nonce) then None
       else Some "nonce mismatch"%string;
     parsePCClientEventLog := toy_PCClient;
     parseCanonicalEventLog := toy_Canonical;
     ParseCertificate := fun b =>
       match b with
       | [] => Err "asn1: syntax error"%string
       | _ => Ok b
       end;
     Certificate_Verify := fun c roots intermediates =>
       if decide (c ∈ roots) then None
       else Some "certificate signed by unknown authority"%string |}.

(** Quotes over a SHA-1 and a SHA-256 bank, both quoting the nonce [7]. *)
Definition quoteSHA1 : Quote :=
  {| quote_quote := [x07]; quote_raw_sig := [x01];
     quote_pcrs := Some {| pcrs_hash := 4; pcrs_values := [] |} |}.
Definition quoteSHA256 : Quote :=
  {| quote_quote := [x07]; quote_raw_sig := [x02];
     quote_pcrs := Some {| pcrs_hash := 11; pcrs_values := [] |} |}.
(** A second SHA-256 quote, over another nonce. *)
Definition quoteSHA256' : Quote :=
  {| quote_quote := [x08]; quote_raw_sig := [x03];
     quote_pcrs := Some {| pcrs_hash := 11; pcrs_values := [] |} |}.

(** An attestation by the key with modulus 1 signing with SHA-256. *)
Definition toy_attestation (quotes : list Quote) : Attestation :=
  {| AkPub := [x01; x0b]; AkCert := []; Quotes := quotes;
     EventLog := [x0a]; CanonicalEventLog := [x0c] |}.

Definition toy_opts (allowSHA1 : bool) : VerifyOpts (D := ToyDeps) :=
  @Build_VerifyOpts ToyDeps [x07] [RSAPublicKey 1 65537] allowSHA1 [] [].

(** [opts] with SHA-1 allowed and everything else as it is. *)
Definition withAllowSHA1 {D : Deps} (opts : VerifyOpts) : VerifyOpts :=
  {| Nonce := Nonce opts; TrustedAKs := TrustedAKs opts; AllowSHA1 := true;
     TrustedRootCerts := TrustedRootCerts opts;
     IntermediateCerts := IntermediateCerts opts |}.

(** The AK checks that come before the loop over the quotes all pass,
    with these intermediate values. *)
Definition akChecksPass {D : Deps} (attestation : Attestation) (opts : VerifyOpts)
    (akPubArea : Public) (akPubKey : PublicKey) (signHashAlg : Algorithm) : Prop :=
  DecodePublic (AkPub attestation) = Ok akPubArea
  /\ Public_Key akPubArea = Ok akPubKey
  /\ (checkAkTrusted akPubKey opts = None
      \/ validateAkCert (AkCert attestation) (IntermediateCerts opts)
           (TrustedRootCerts opts) = None)
  /\ GetSigningHashAlg akPubArea = Ok signHashAlg
  /\ checkHashAlgSupported signHashAlg opts = None.

End Server.

(* ===================================================================== *)
(** * Package wel: properties *)
(* ===================================================================== *)
Module WelProofs.
Import Wel.

(** The guard of [UntrustedParseEventType] holds for no value: nothing is
    below the start of a range and above its end. *)
Lemma range_guard_false (et : Z) :
  ((et <? 0x80000000) && (0x800000FF <? et)) || ((et <? 0x0) && (0x12 <? et)) = false.
Proof.
  destruct (Z.ltb_spec et 0x80000000), (Z.ltb_spec 0x800000FF et),
    (Z.ltb_spec et 0x0), (Z.ltb_spec 0x12 et); simpl; try reflexivity; lia.
Qed.

Lemma UntrustedParseEventType_lookup (et : Z) :
  UntrustedParseEventType et =
    match eventTypeNames !! et with
    | None => Err (ErrUnknownEventType et)
    | Some _ => Ok et
    end.
Proof. unfold UntrustedParseEventType. now rewrite range_guard_false. Qed.

(** Every key of the table lies in one of the two documented ranges. *)
Lemma eventTypeNames_in_range (et : Z) :
  is_Some (eventTypeNames !! et) -> in_BIOS_range et \/ in_EFI_range et.
Proof.
  intros [name Hname]. unfold eventTypeNames in Hname.
  apply elem_of_list_to_map_2 in Hname.
  unfold in_BIOS_range, in_EFI_range.
  repeat (apply elem_of_cons in Hname as [Heq | Hname];
          [ injection Heq as -> _; vm_compute; intuition congruence | ]).
  now apply elem_of_nil in Hname.
Qed.

(** C5 (the code departs from the claim).  Acceptance is as claimed: a
    value parses exactly when it is in one of the two ranges and in the
    table, and 0x13 gets the unknown-event-type error.  The two causes
    are not told apart, though: the range guard is never true, so
    0x80000100 gets the unknown-event-type error as well, and no value
    gets the out-of-range error. *)
Theorem UntrustedParseEventType_range_error_never_returned :
  (forall et : Z,
      UntrustedParseEventType et = Ok et <->
      (in_BIOS_range et \/ in_EFI_range et) /\ is_Some (eventTypeNames !! et))
  /\ UntrustedParseEventType 0x13 = Err (ErrUnknownEventType 0x13)
  /\ UntrustedParseEventType 0x80000100 = Err (ErrUnknownEventType 0x80000100)
  /\ (forall et e, UntrustedParseEventType et = Err e -> e = ErrUnknownEventType et).
Proof.
  split; [ | split; [ | split ] ].
  - intros et. rewrite UntrustedParseEventType_lookup. split.
    + destruct (eventTypeNames !! et) as [name|] eqn:Hl; [ | discriminate ].
      intros _. split; [ apply eventTypeNames_in_range; rewrite Hl | ]; eauto.
    + intros [_ [name ->]]. reflexivity.
  - reflexivity.
  - reflexivity.
  - intros et e. rewrite UntrustedParseEventType_lookup.
    destruct (eventTypeNames !! et); congruence.
Qed.

(** ** ParseTaggedEventData *)

Lemma LittleEndian_Uint32_nonneg (b : list byte) : 0 <= LittleEndian_Uint32 b.
Proof.
  unfold LittleEndian_Uint32, byte_Z.
  destruct b as [|b0 [|b1 [|b2 [|b3 ?]]]]; try lia.
  repeat (apply Z.lor_nonneg; split); try apply Z.shiftl_nonneg; lia.
Qed.

Lemma byte_Z_bound (b : byte) : 0 <= byte_Z b < 256.
Proof. unfold byte_Z. pose proof (Byte.to_N_bounded b). lia. Qed.

Lemma lor_below (a b n : Z) :
  0 <= a < 2 ^ n -> 0 <= b < 2 ^ n -> 0 <= Z.lor a b < 2 ^ n.
Proof.
  intros Ha Hb.
  assert (Hnn : 0 <= Z.lor a b) by (apply Z.lor_nonneg; lia).
  split; [ exact Hnn | ].
  destruct (Z.eq_dec (Z.lor a b) 0) as [-> | Hnz]; [ lia | ].
  assert (Hn : 0 < n).
  { destruct (Z.lt_ge_cases 0 n) as [? | Hle]; [ assumption | ].
    assert (H1 : 2 ^ n <= 1).
    { destruct (Z.eq_dec n 0) as [-> | ?]; [ cbn; lia | ].
      rewrite Z.pow_neg_r by lia. lia. }
    assert (a = 0) by lia. assert (b = 0) by lia. subst. now cbn in Hnz. }
  apply Z.log2_lt_pow2; [ lia | ].
  rewrite Z.log2_lor by lia.
  apply Z.max_lub_lt.
  - destruct (Z.eq_dec a 0) as [-> | ?]; [ cbn; lia | ].
    apply Z.log2_lt_pow2; lia.
  - destruct (Z.eq_dec b 0) as [-> | ?]; [ cbn; lia | ].
    apply Z.log2_lt_pow2; lia.
Qed.

(** A [uint32] is what [binary.LittleEndian.Uint32] returns. *)
Lemma LittleEndian_Uint32_bound (b : list byte) :
  0 <= LittleEndian_Uint32 b < 2 ^ 32.
Proof.
  unfold LittleEndian_Uint32.
  destruct b as [|b0 [|b1 [|b2 [|b3 ?]]]]; try (cbn; lia).
  pose proof (byte_Z_bound b0). pose proof (byte_Z_bound b1).
  pose proof (byte_Z_bound b2). pose proof (byte_Z_bound b3).
  repeat apply lor_below; rewrite ?Z.shiftl_mul_pow2 by lia;
    change (2 ^ 32) with 4294967296; change (2 ^ 8) with 256;
    change (2 ^ 16) with 65536; change (2 ^ 24) with 16777216; lia.
Qed.

(** ** The conversion to [int] and [make] *)

Lemma maxInt_IntSize32 : maxInt IntSize32 = 2147483647.
Proof. reflexivity. Qed.

Lemma maxInt_IntSize64 : maxInt IntSize64 = 9223372036854775807.
Proof. reflexivity. Qed.

Lemma pow_intBits_IntSize32 : 2 ^ intBits IntSize32 = 4294967296.
Proof. reflexivity. Qed.

Lemma pow_intBits_IntSize64 : 2 ^ intBits IntSize64 = 18446744073709551616.
Proof. reflexivity. Qed.

(** Write the bounds of [int] and [uint32] as numerals, for [lia]. *)
Ltac int_bounds :=
  rewrite ?maxInt_IntSize32, ?maxInt_IntSize64, ?pow_intBits_IntSize32,
    ?pow_intBits_IntSize64 in *;
  change (2 ^ 32) with 4294967296 in *;
  change (2 ^ 31) with 2147483648 in *.

(** [int(v)] is [v] for a value that is an [int]. *)
Lemma to_int_fits (w : IntSize) (v : Z) : 0 <= v <= maxInt w -> to_int w v = v.
Proof.
  intros Hv. unfold to_int. cbv zeta.
  assert (Hm : v mod 2 ^ intBits w = v).
  { apply Z.mod_small. destruct w; int_bounds; lia. }
  rewrite Hm. destruct (Z.leb_spec v (maxInt w)); [ reflexivity | lia ].
Qed.

(** A [uint32] that is no [int]: the build is a 32-bit one, the value is
    at least 2^31 and converts to a negative [int]. *)
Lemma to_int_wraps (w : IntSize) (v : Z) :
  0 <= v < 2 ^ 32 -> maxInt w < v ->
  w = IntSize32 /\ 2 ^ 31 <= v /\ to_int w v = v - 2 ^ 32 /\ to_int w v < 0.
Proof.
  intros Hv Hbig. destruct w; [ | int_bounds; lia ].
  split; [ reflexivity | ].
  assert (Hconv : to_int IntSize32 v = v - 2 ^ 32).
  { unfold to_int. cbv zeta.
    assert (Hm : v mod 2 ^ intBits IntSize32 = v)
      by (apply Z.mod_small; int_bounds; lia).
    rewrite Hm. destruct (Z.leb_spec v (maxInt IntSize32)) as [Hle | _];
      [ lia | reflexivity ]. }
  rewrite Hconv. int_bounds. lia.
Qed.

(** On a 64-bit build every [uint32] is an [int]. *)
Lemma uint32_fits_IntSize64 (v : Z) : 0 <= v < 2 ^ 32 -> v <= maxInt IntSize64.
Proof. intros Hv. int_bounds. lia. Qed.

(** ** ParseTaggedEventData after its header *)

(** Reading the header: it fails exactly on fewer than eight bytes, and
    otherwise leaves the bytes after the eighth. *)
Lemma binary_Read_header_ok (d : list byte) (r : Reader) (hdr : header) :
  binary_Read_header (NewReader d) = (r, Ok hdr) ->
  (8 <= length d)%nat /\ r = drop 8 d /\ 0 <= DataLen hdr < 2 ^ 32.
Proof.
  unfold binary_Read_header, ReadFull, NewReader.
  repeat case_decide; try discriminate.
  intros [= <- <-]. cbn [DataLen].
  split; [ lia | split; [ reflexivity | apply LittleEndian_Uint32_bound ] ].
Qed.

Lemma binary_Read_header_app (hd rest : list byte) :
  length hd = 8%nat ->
  binary_Read_header (NewReader (hd ++ rest)) =
    (rest, Ok {| ID := LittleEndian_Uint32 (take 4 hd);
                 DataLen := LittleEndian_Uint32 (drop 4 hd) |}).
Proof.
  intros Hlen. unfold binary_Read_header, ReadFull, NewReader.
  rewrite length_app, Hlen.
  repeat case_decide; try lia.
  rewrite drop_app_length' by (symmetry; assumption).
  rewrite take_app_length' by (symmetry; assumption). reflexivity.
Qed.

(** The four ways a call goes on once the header is read. *)
Lemma ParseTaggedEventData_after_header (w : IntSize) (d : list byte) (r : Reader)
    (hdr : header) :
  binary_Read_header (NewReader d) = (r, Ok hdr) ->
  (maxInt w < DataLen hdr ->
     ParseTaggedEventData w d =
       {| allocated := []; returned := None; returned_err := None;
          panicked := true |})
  /\ (DataLen hdr <= maxInt w -> Z.of_nat (length d) < DataLen hdr ->
      ParseTaggedEventData w d =
        {| allocated := []; returned := None;
           returned_err :=
             Some (ErrTaggedEventLen (DataLen hdr) (Z.of_nat (length d)));
           panicked := false |})
  /\ (DataLen hdr <= maxInt w ->
      Z.of_nat (length r) < DataLen hdr <= Z.of_nat (length d) ->
      ParseTaggedEventData w d =
        {| allocated := [DataLen hdr];
           returned :=
             Some {| ted_ID := ID hdr;
                     ted_Data := replicate (Z.to_nat (DataLen hdr)) x00 |};
           returned_err :=
             Some (ErrReadData (if decide (length r = 0%nat) then io_EOF
                                else io_ErrUnexpectedEOF));
           panicked := false |})
  /\ (DataLen hdr <= maxInt w -> DataLen hdr <= Z.of_nat (length r) ->
      ParseTaggedEventData w d =
        {| allocated := [DataLen hdr];
           returned := Some {| ted_ID := ID hdr;
                               ted_Data := take (Z.to_nat (DataLen hdr)) r |};
           returned_err := None;
           panicked := false |}).
Proof.
  intros Hhdr. pose proof (binary_Read_header_ok _ _ _ Hhdr) as (Hd & Hr & Hnn).
  unfold ParseTaggedEventData. rewrite Hhdr.
  assert (Hlen : length r = (length d - 8)%nat) by (subst r; apply length_drop).
  split; [ | split; [ | split ] ].
  - intros Hbig.
    destruct (to_int_wraps w _ Hnn Hbig) as (_ & _ & _ & Hneg).
    assert (Hguard : (Z.of_nat (length d) <? to_int w (DataLen hdr)) = false)
      by (apply Z.ltb_ge; lia).
    rewrite Hguard. unfold make_bytes.
    destruct (Z.leb_spec (DataLen hdr) (maxInt w)); [ lia | reflexivity ].
  - intros Hfits Hbig. rewrite to_int_fits by lia.
    apply Z.ltb_lt in Hbig. now rewrite Hbig.
  - intros Hfits [Hlo Hhi]. rewrite to_int_fits by lia.
    apply Z.ltb_ge in Hhi. rewrite Hhi. unfold make_bytes.
    destruct (Z.leb_spec (DataLen hdr) (maxInt w)); [ | lia ].
    unfold binary_Read_bytes, ReadFull. rewrite length_replicate.
    repeat case_decide; try lia; reflexivity.
  - intros Hfits Hfit. rewrite to_int_fits by lia.
    assert (Hhi : (Z.of_nat (length d) <? DataLen hdr) = false)
      by (apply Z.ltb_ge; lia).
    rewrite Hhi. unfold make_bytes.
    destruct (Z.leb_spec (DataLen hdr) (maxInt w)); [ | lia ].
    unfold binary_Read_bytes, ReadFull. rewrite length_replicate.
    repeat case_decide; try lia; cbn; try reflexivity.
    replace (Z.to_nat (DataLen hdr)) with 0%nat by lia. reflexivity.
Qed.




(** C7, as amended.  [maxBytesBufferSize] is declared but no parse
    consults it.  On either build [ParseTaggedEventData] allocates at
    most once, and never more than the length of its input; so the
    buffer stays within [maxBytesBufferSize] for inputs that do.  A call
    panics exactly when the build is a 32-bit one and the header that
    was read announces 2^31 bytes or more; it has allocated nothing and
    returns nothing then. *)
Theorem ParseTaggedEventData_allocation_bounded_by_input :
  Client.maxBytesBufferSize = 1048576
  /\ forall (w : IntSize) (d : list byte),
      (allocated (ParseTaggedEventData w d) = []
       \/ exists n, allocated (ParseTaggedEventData w d) = [n]
                    /\ 0 <= n <= Z.of_nat (length d)
                    /\ panicked (ParseTaggedEventData w d) = false)
      /\ (Z.of_nat (length d) <= Client.maxBytesBufferSize ->
          Forall (fun n => n <= Client.maxBytesBufferSize)
            (allocated (ParseTaggedEventData w d)))
      /\ (panicked (ParseTaggedEventData w d) = true <->
          w = IntSize32
          /\ exists r hdr, binary_Read_header (NewReader d) = (r, Ok hdr)
                           /\ 2 ^ 31 <= DataLen hdr)
      /\ (panicked (ParseTaggedEventData w d) = true ->
          ParseTaggedEventData w d =
            {| allocated := []; returned := None; returned_err := None;
               panicked := true |}).
Proof.
  split; [ reflexivity | ].
  intros w d.
  assert (Hcases :
    (ParseTaggedEventData w d =
       {| allocated := []; returned := None; returned_err := None;
          panicked := true |}
     /\ w = IntSize32
     /\ exists r hdr, binary_Read_header (NewReader d) = (r, Ok hdr)
                      /\ 2 ^ 31 <= DataLen hdr)
    \/ (panicked (ParseTaggedEventData w d) = false
        /\ (w = IntSize32 ->
            forall r hdr, binary_Read_header (NewReader d) = (r, Ok hdr) ->
                          DataLen hdr < 2 ^ 31)
        /\ (allocated (ParseTaggedEventData w d) = []
            \/ exists n, allocated (ParseTaggedEventData w d) = [n]
                         /\ 0 <= n <= Z.of_nat (length d)))).
  { destruct (binary_Read_header (NewReader d)) as [r [hdr | e]] eqn:Hhdr.
    - pose proof (binary_Read_header_ok _ _ _ Hhdr) as (Hd & Hr & Hnn).
      pose proof (ParseTaggedEventData_after_header w _ _ _ Hhdr)
        as (Hpanic & Hbig & Hmid & Hfit).
      assert (Hlen : length r = (length d - 8)%nat) by (subst r; apply length_drop).
      destruct (Z.lt_ge_cases (maxInt w) (DataLen hdr)) as [Hwrap | Hfits].
      + left. destruct (to_int_wraps w _ Hnn Hwrap) as (Hw & Hge & _).
        split; [ now apply Hpanic | ]. split; [ exact Hw | eauto ].
      + right.
        assert (Hsmall : w = IntSize32 -> DataLen hdr < 2 ^ 31)
          by (intros ->; int_bounds; lia).
        destruct (Z.lt_ge_cases (Z.of_nat (length d)) (DataLen hdr)) as [Hlt | Hge].
        * rewrite (Hbig Hfits Hlt). cbn.
          split; [ reflexivity | ].
          split; [ intros Hw r' hdr' [= <- <-]; auto | now left ].
        * destruct (Z.lt_ge_cases (Z.of_nat (length r)) (DataLen hdr))
            as [Hlo | Hok].
          -- rewrite (Hmid Hfits (conj Hlo Hge)). cbn.
             split; [ reflexivity | ].
             split; [ intros Hw r' hdr' [= <- <-]; auto | ].
             right. exists (DataLen hdr). split; [ reflexivity | lia ].
          -- rewrite (Hfit Hfits Hok). cbn.
             split; [ reflexivity | ].
             split; [ intros Hw r' hdr' [= <- <-]; auto | ].
             right. exists (DataLen hdr). split; [ reflexivity | lia ].
    - right. unfold ParseTaggedEventData. rewrite Hhdr. cbn.
      split; [ reflexivity | ]. split; [ | now left ].
      intros _ r' hdr' [=]. }
  split; [ | split; [ | split ] ].
  - destruct Hcases as [(-> & _) | (Hnp & _ & [Hnil | (n & Hn & Hb)])].
    + now left.
    + now left.
    + right. exists n. auto.
  - intros Hsmall.
    destruct Hcases as [(-> & _) | (_ & _ & [-> | (n & -> & Hn)])].
    + constructor.
    + constructor.
    + repeat constructor. lia.
  - destruct Hcases as [(-> & Hw & Hex) | (Hnp & Hsmall & _)].
    + cbn. tauto.
    + rewrite Hnp. split; [ discriminate | ].
      intros (Hw & r & hdr & Hhdr & Hge). specialize (Hsmall Hw r hdr Hhdr). lia.
  - destruct Hcases as [(-> & _) | (Hnp & _)]; [ reflexivity | ].
    rewrite Hnp. discriminate.
Qed.

(** C7, the claim as stated, fails on either build at a header
    announcing 1 MiB + 1 bytes followed by that many bytes: all of them
    are allocated. *)
Lemma ParseTaggedEventData_allocates_beyond_maxBytesBufferSize :
  allocated
    (ParseTaggedEventData IntSize64
       ([x00; x00; x00; x00; x01; x00; x10; x00]
          ++ replicate (Z.to_nat 1048577) x00)) = [1048577]
  /\ allocated
       (ParseTaggedEventData IntSize32
          ([x00; x00; x00; x00; x01; x00; x10; x00]
             ++ replicate (Z.to_nat 1048577) x00)) = [1048577]
  /\ Client.maxBytesBufferSize < 1048577.
Proof.
  pose proof (binary_Read_header_app [x00; x00; x00; x00; x01; x00; x10; x00]
                (replicate (Z.to_nat 1048577) x00) eq_refl) as Hhdr.
  change (LittleEndian_Uint32 (take 4 [x00; x00; x00; x00; x01; x00; x10; x00]))
    with 0 in Hhdr.
  change (LittleEndian_Uint32 (drop 4 [x00; x00; x00; x00; x01; x00; x10; x00]))
    with 1048577 in Hhdr.
  assert (Hall : forall w,
    allocated
      (ParseTaggedEventData w
         ([x00; x00; x00; x00; x01; x00; x10; x00]
            ++ replicate (Z.to_nat 1048577) x00)) = [1048577]).
  { intros w.
    pose proof (ParseTaggedEventData_after_header w _ _ _ Hhdr) as (_ & _ & _ & Hfit).
    cbn [DataLen ID] in Hfit. rewrite Hfit; [ reflexivity | | ].
    - destruct w; int_bounds; lia.
    - rewrite length_replicate. lia. }
  split; [ apply Hall | split; [ apply Hall | reflexivity ] ].
Qed.

(** ** Writing and reading back a tagged event *)

Lemma byte_Z_byte_of_Z (v : Z) : byte_Z (byte_of_Z v) = v mod 256.
Proof.
  unfold byte_Z, byte_of_Z.
  assert (Hr : 0 <= v mod 256 < 256) by (apply Z.mod_pos_bound; lia).
  destruct (Byte.of_N (Z.to_N (v mod 256))) as [b|] eqn:Hb.
  - apply Byte.to_of_N in Hb. rewrite Hb. lia.
  - apply Byte.of_N_None_iff in Hb. lia.
Qed.

(** Bit [n] of the low byte of [v >> k], moved back up by [k]. *)
Lemma testbit_byte_at (v k n : Z) :
  0 <= k -> 0 <= n ->
  Z.testbit (Z.shiftl ((Z.shiftr v k) mod 2 ^ 8) k) n =
    (k <=? n) && (n <? k + 8) && Z.testbit v n.
Proof.
  intros Hk Hn. rewrite Z.shiftl_spec by assumption.
  destruct (Z.leb_spec k n) as [Hle | Hlt].
  - rewrite Z.testbit_mod_pow2 by lia. rewrite Z.shiftr_spec by lia.
    replace (n - k + k) with n by lia.
    destruct (Z.ltb_spec (n - k) 8), (Z.ltb_spec n (k + 8)); try lia; reflexivity.
  - rewrite Z.testbit_neg_r by lia. reflexivity.
Qed.

Lemma LittleEndian_Uint32_PutUint32 (v : Z) :
  0 <= v < 2 ^ 32 -> LittleEndian_Uint32 (LittleEndian_PutUint32 v) = v.
Proof.
  intros Hv. unfold LittleEndian_Uint32, LittleEndian_PutUint32.
  rewrite !byte_Z_byte_of_Z. change 256 with (2 ^ 8).
  apply Z.bits_inj'. intros n Hn.
  rewrite !Z.lor_spec.
  rewrite <- (Z.shiftl_0_r (v mod 2 ^ 8)), <- (Z.shiftr_0_r v) at 1.
  rewrite !testbit_byte_at by lia.
  destruct (Z.ltb_spec n 32) as [Hlt | Hge].
  - destruct (Z.leb_spec 0 n), (Z.ltb_spec n (0 + 8)), (Z.leb_spec 8 n),
      (Z.ltb_spec n (8 + 8)), (Z.leb_spec 16 n), (Z.ltb_spec n (16 + 8)),
      (Z.leb_spec 24 n), (Z.ltb_spec n (24 + 8)); try lia; cbn;
      rewrite ?orb_false_r; reflexivity.
  - assert (Hhigh : Z.testbit v n = false).
    { destruct (Z.eq_dec v 0) as [-> | Hnz]; [ apply Z.bits_0 | ].
      apply Z.bits_above_log2; [ lia | ].
      assert (Z.log2 v < 32) by (apply Z.log2_lt_pow2; lia). lia. }
    rewrite Hhigh, !andb_false_r. reflexivity.
Qed.

Lemma LittleEndian_PutUint32_length (v : Z) :
  length (LittleEndian_PutUint32 v) = 4%nat.
Proof. reflexivity. Qed.

(** X1.  Reading back what was written, on either build: a tagged event
    whose id and data length fit 32 bits, and whose data is a slice (its
    length is an [int], which the 32-bit bound gives on a 64-bit build),
    followed by any bytes, parses to itself with a nil error and no
    panic; the bytes after it are ignored, and the one allocation has the
    length of the data. *)
Theorem ParseTaggedEventData_round_trip (w : IntSize) (t : TaggedEventData)
    (trailing : list byte) :
  0 <= ted_ID t < 2 ^ 32 ->
  Z.of_nat (length (ted_Data t)) < 2 ^ 32 ->
  (w = IntSize32 -> Z.of_nat (length (ted_Data t)) <= maxInt IntSize32) ->
  ParseTaggedEventData w (TaggedEventData_bytes t ++ trailing) =
    {| allocated := [Z.of_nat (length (ted_Data t))];
       returned := Some t;
       returned_err := None;
       panicked := false |}.
Proof.
  intros Hid Hlen Hslice. destruct t as [id data]. cbn [ted_ID ted_Data] in *.
  unfold TaggedEventData_bytes. cbn [ted_ID ted_Data].
  set (hd := LittleEndian_PutUint32 id
               ++ LittleEndian_PutUint32 (Z.of_nat (length data))).
  replace ((LittleEndian_PutUint32 id
              ++ LittleEndian_PutUint32 (Z.of_nat (length data)) ++ data)
             ++ trailing)
    with (hd ++ (data ++ trailing))
    by (subst hd; now rewrite <- !app_assoc).
  assert (Hhd : length hd = 8%nat) by reflexivity.
  pose proof (binary_Read_header_app hd (data ++ trailing) Hhd) as Hhdr.
  assert (Htake : take 4 hd = LittleEndian_PutUint32 id) by reflexivity.
  assert (Hdrop : drop 4 hd = LittleEndian_PutUint32 (Z.of_nat (length data)))
    by reflexivity.
  rewrite Htake, Hdrop in Hhdr.
  rewrite !LittleEndian_Uint32_PutUint32 in Hhdr by lia.
  pose proof (ParseTaggedEventData_after_header w _ _ _ Hhdr) as (_ & _ & _ & Hfit).
  cbn [DataLen ID] in Hfit. rewrite Hfit.
  - rewrite Nat2Z.id, take_app_length. reflexivity.
  - destruct w; [ now apply Hslice | apply uint32_fits_IntSize64; lia ].
  - rewrite length_app. lia.
Qed.

(** The round trip on a 32-bit build at the event [id = 0x01020304,
    data = 0a 0b] followed by one stray byte. *)
Lemma ParseTaggedEventData_round_trip_witness :
  ParseTaggedEventData IntSize32
    (TaggedEventData_bytes {| ted_ID := 0x01020304; ted_Data := [x0a; x0b] |}
       ++ [xff]) =
    {| allocated := [Z.of_nat (length [x0a; x0b])];
       returned := Some {| ted_ID := 0x01020304; ted_Data := [x0a; x0b] |};
       returned_err := None;
       panicked := false |}.
Proof.
  apply (ParseTaggedEventData_round_trip IntSize32
           {| ted_ID := 0x01020304; ted_Data := [x0a; x0b] |} [xff]);
    [ cbn; lia | cbn; lia | intros _; rewrite maxInt_IntSize32; cbn; lia ].
Defined.

(** ** Every way a call of ParseTaggedEventData ends *)

Lemma binary_Read_header_at_least_8 (d : list byte) :
  (8 <= length d)%nat ->
  binary_Read_header (NewReader d) =
    (drop 8 d, Ok {| ID := LittleEndian_Uint32 (take 4 (take 8 d));
                     DataLen := LittleEndian_Uint32 (drop 4 (take 8 d)) |}).
Proof.
  intros Hlen. unfold binary_Read_header, ReadFull, NewReader.
  repeat case_decide; try lia. reflexivity.
Qed.

(** X2.  The outcome of a call by the build, the length of the input and
    the announced data length.  Fewer than eight bytes: a header error
    wrapping [io.EOF] for the empty input and [io.ErrUnexpectedEOF]
    otherwise, nothing returned.  With the header read, a data length
    that is no [int] (only on a 32-bit build, from 2^31 on): the call
    panics, with nothing allocated.  Otherwise, a data length above the
    input's length: the length error, nothing allocated or returned.  A
    data length above what is left but not above the input's length: a
    struct with the id and all-zero data is returned together with the
    error of the failed read.  Otherwise: the id and the next [DataLen]
    bytes, with a nil error. *)
Theorem ParseTaggedEventData_outcomes (w : IntSize) (d : list byte) :
  (length d = 0%nat ->
     ParseTaggedEventData w d =
       {| allocated := []; returned := None;
          returned_err := Some (ErrReadingHeader io_EOF);
          panicked := false |})
  /\ ((0 < length d < 8)%nat ->
      ParseTaggedEventData w d =
        {| allocated := []; returned := None;
           returned_err := Some (ErrReadingHeader io_ErrUnexpectedEOF);
           panicked := false |})
  /\ ((8 <= length d)%nat ->
      exists id dataLen,
        id = LittleEndian_Uint32 (take 4 d)
        /\ dataLen = LittleEndian_Uint32 (take 4 (drop 4 d))
        /\ 0 <= dataLen < 2 ^ 32
        /\ (maxInt w < dataLen <-> w = IntSize32 /\ 2 ^ 31 <= dataLen)
        /\ (maxInt w < dataLen ->
            ParseTaggedEventData w d =
              {| allocated := []; returned := None; returned_err := None;
                 panicked := true |})
        /\ (dataLen <= maxInt w -> Z.of_nat (length d) < dataLen ->
            ParseTaggedEventData w d =
              {| allocated := []; returned := None;
                 returned_err :=
                   Some (ErrTaggedEventLen dataLen (Z.of_nat (length d)));
                 panicked := false |})
        /\ (dataLen <= maxInt w ->
            Z.of_nat (length d) - 8 < dataLen <= Z.of_nat (length d) ->
            ParseTaggedEventData w d =
              {| allocated := [dataLen];
                 returned :=
                   Some {| ted_ID := id;
                           ted_Data := replicate (Z.to_nat dataLen) x00 |};
                 returned_err :=
                   Some (ErrReadData (if decide (length d = 8%nat) then io_EOF
                                      else io_ErrUnexpectedEOF));
                 panicked := false |})
        /\ (dataLen <= maxInt w -> dataLen <= Z.of_nat (length d) - 8 ->
            ParseTaggedEventData w d =
              {| allocated := [dataLen];
                 returned :=
                   Some {| ted_ID := id;
                           ted_Data := take (Z.to_nat dataLen) (drop 8 d) |};
                 returned_err := None;
                 panicked := false |})).
Proof.
  split; [ | split ].
  - intros Hlen. unfold ParseTaggedEventData, binary_Read_header, ReadFull, NewReader.
    repeat case_decide; try lia. reflexivity.
  - intros Hlen. unfold ParseTaggedEventData, binary_Read_header, ReadFull, NewReader.
    repeat case_decide; try lia. reflexivity.
  - intros Hlen.
    pose proof (binary_Read_header_at_least_8 d Hlen) as Hhdr.
    set (hdr := {| ID := LittleEndian_Uint32 (take 4 (take 8 d));
                   DataLen := LittleEndian_Uint32 (drop 4 (take 8 d)) |}) in Hhdr.
    pose proof (binary_Read_header_ok _ _ _ Hhdr) as (_ & _ & Hnn).
    pose proof (ParseTaggedEventData_after_header w _ _ _ Hhdr)
      as (Hpanic & Hbig & Hmid & Hfit).
    assert (Hid : ID hdr = LittleEndian_Uint32 (take 4 d)).
    { subst hdr. cbn [ID]. rewrite take_take. reflexivity. }
    assert (Hdl : DataLen hdr = LittleEndian_Uint32 (take 4 (drop 4 d))).
    { subst hdr. cbn [DataLen]. rewrite take_drop_commute. reflexivity. }
    assert (Hrest : length (drop 8 d) = (length d - 8)%nat) by apply length_drop.
    exists (ID hdr), (DataLen hdr).
    split; [ exact Hid | split; [ exact Hdl | ] ].
    split; [ exact Hnn | ].
    split.
    { split.
      - intros Hwrap. destruct (to_int_wraps w _ Hnn Hwrap) as (Hw & Hge & _). auto.
      - intros [-> Hge]. int_bounds. lia. }
    split; [ exact Hpanic | split; [ exact Hbig | split ] ].
    + intros Hfits [Hlo Hhi]. rewrite Hmid by (try assumption; lia).
      repeat f_equal. rewrite Hrest.
      repeat case_decide; try lia; reflexivity.
    + intros Hfits Hok. apply Hfit; [ assumption | lia ].
Qed.

(** ** Printing event types *)

Import Stdlib.Strings.Ascii.

Lemma digit_value_ldigit (d : Z) : 0 <= d < 16 -> digit_value (ldigit d) = d.
Proof.
  intros Hd.
  assert (Hcases : d = 0 \/ d = 1 \/ d = 2 \/ d = 3 \/ d = 4 \/ d = 5 \/ d = 6
                   \/ d = 7 \/ d = 8 \/ d = 9 \/ d = 10 \/ d = 11 \/ d = 12
                   \/ d = 13 \/ d = 14 \/ d = 15) by lia.
  repeat (destruct Hcases as [-> | Hcases]; [ reflexivity | ]).
  now subst d.
Qed.

Lemma string_length_app (s t : string) :
  String.length (s ++ t) = (String.length s + String.length t)%nat.
Proof. induction s as [|c s IH]; simpl; [ reflexivity | f_equal; exact IH ]. Qed.

Lemma string_app_assoc (s t u : string) : ((s ++ t) ++ u = s ++ t ++ u)%string.
Proof.
  induction s as [|c s IH]; [ reflexivity | ].
  change (String c ((s ++ t) ++ u) = String c (s ++ t ++ u))%string.
  now rewrite IH.
Qed.

Lemma string_app_inv_tail (s1 s2 t : string) :
  (s1 ++ t = s2 ++ t)%string -> s1 = s2.
Proof.
  revert s2. induction s1 as [|c s1 IH]; intros [|c' s2] Heq.
  - reflexivity.
  - apply (f_equal String.length) in Heq.
    rewrite !string_length_app in Heq. simpl in Heq. lia.
  - apply (f_equal String.length) in Heq.
    rewrite !string_length_app in Heq. simpl in Heq. lia.
  - change (String c (s1 ++ t) = String c' (s2 ++ t))%string in Heq.
    injection Heq as -> Heq. f_equal. now apply IH.
Qed.

Lemma read_x_app (s t : string) (acc : Z) :
  read_x (s ++ t) acc = read_x t (read_x s acc).
Proof. revert acc. induction s as [|c s IH]; intros acc; cbn; [ reflexivity | apply IH ]. Qed.

(** The digits go in front of what the buffer already holds. *)
Lemma fmt_x_buf (u : Z) (buf : string) :
  0 <= u -> fmt_x u buf = (fmt_x u "" ++ buf)%string.
Proof.
  intros Hu. revert buf.
  induction u as [u IH] using (well_founded_induction (Z.lt_wf 0)). intros buf.
  rewrite (fmt_x_equation_1 u buf), (fmt_x_equation_1 u "").
  destruct (decide (16 <= u)) as [Hbig | Hsmall]; [ | reflexivity ].
  assert (Hdiv : 0 <= Z.shiftr u 4 < u).
  { rewrite Z.shiftr_div_pow2 by lia. change (2 ^ 4) with 16.
    split; [ apply Z.div_pos; lia | apply Z.div_lt; lia ]. }
  rewrite (IH (Z.shiftr u 4)) by lia.
  rewrite (IH (Z.shiftr u 4) ltac:(lia) ltac:(lia)
             (String (ldigit (Z.land u 15)) "")).
  now rewrite string_app_assoc.
Qed.

(** Reading the digits of [u] gives [u] back. *)
Lemma read_x_fmt_x (u : Z) : 0 <= u -> read_x (fmt_x u "") 0 = u.
Proof.
  induction u as [u IH] using (well_founded_induction (Z.lt_wf 0)). intros Hu.
  rewrite fmt_x_equation_1.
  destruct (decide (16 <= u)) as [Hbig | Hsmall].
  - assert (Hshift : Z.shiftr u 4 = u / 16).
    { rewrite Z.shiftr_div_pow2 by lia. reflexivity. }
    assert (Hland : Z.land u 15 = u mod 16).
    { change 15 with (Z.ones 4). rewrite Z.land_ones by lia. reflexivity. }
    assert (Hdiv : 0 <= u / 16 < u).
    { split; [ apply Z.div_pos; lia | apply Z.div_lt; lia ]. }
    rewrite fmt_x_buf, read_x_app by lia. rewrite Hshift, Hland.
    rewrite IH by lia. cbn [read_x].
    rewrite digit_value_ldigit by (apply Z.mod_pos_bound; lia).
    symmetry. apply Z.div_mod. lia.
  - cbn [read_x]. rewrite digit_value_ldigit by lia. lia.
Qed.

(** No two event types share a name, and no name has the parenthesis of
    the numeric form in its tenth place. *)
Lemma NoDup_snd_inj {A B} (l : list (A * B)) (k1 k2 : A) (v : B) :
  NoDup l.*2 -> (k1, v) ∈ l -> (k2, v) ∈ l -> k1 = k2.
Proof.
  induction l as [|[k v'] l IH]; intros Hnd H1 H2.
  - now apply elem_of_nil in H1.
  - cbn in Hnd. apply NoDup_cons in Hnd as [Hnotin Hnd].
    apply elem_of_cons in H1 as [[= -> ->] | H1];
      apply elem_of_cons in H2 as [[= ->] | H2]; try reflexivity.
    + exfalso. apply Hnotin. apply list_elem_of_fmap. now exists (k2, v').
    + subst v'. exfalso. apply Hnotin. apply list_elem_of_fmap. now exists (k1, v).
    + now apply IH.
Qed.

Lemma eventTypeNames_inj (e1 e2 : Z) (s : string) :
  eventTypeNames !! e1 = Some s -> eventTypeNames !! e2 = Some s -> e1 = e2.
Proof.
  unfold eventTypeNames. intros H1 H2.
  apply elem_of_list_to_map_2 in H1. apply elem_of_list_to_map_2 in H2.
  match type of H1 with _ ∈ ?l => set (table := l) in * end.
  assert (Hnames : NoDup table.*2).
  { apply (bool_decide_unpack _). vm_compute. exact I. }
  exact (NoDup_snd_inj table e1 e2 s Hnames H1 H2).
Qed.

Lemma eventTypeNames_not_numeric (e : Z) (s : string) :
  eventTypeNames !! e = Some s -> String.get 9 s <> Some "("%char.
Proof.
  intros He. unfold eventTypeNames in He.
  apply elem_of_list_to_map_2 in He.
  repeat (apply elem_of_cons in He as [Heq | He];
          [ injection Heq as _ ->; vm_compute; discriminate | ]).
  now apply elem_of_nil in He.
Qed.

(** X3.  [String] tells all event types apart: known types by their names,
    which differ from each other and from every numeric form, and
    unknown ones by their hexadecimal value. *)
Theorem EventType_String_injective (e1 e2 : EventType) :
  0 <= e1 -> 0 <= e2 ->
  EventType_String e1 = EventType_String e2 -> e1 = e2.
Proof.
  intros He1 He2. unfold EventType_String.
  destruct (eventTypeNames !! e1) as [s1|] eqn:H1,
           (eventTypeNames !! e2) as [s2|] eqn:H2.
  - intros ->. exact (eventTypeNames_inj _ _ _ H1 H2).
  - intros ->. apply eventTypeNames_not_numeric in H1.
    exfalso. apply H1. reflexivity.
  - intros <-. apply eventTypeNames_not_numeric in H2.
    exfalso. apply H2. reflexivity.
  - intros Heq. cbn in Heq.
    repeat (injection Heq as Heq).
    assert (Heq' : (fmt_x e1 "" ++ ")" = fmt_x e2 "" ++ ")")%string) by exact Heq.
    clear Heq. rename Heq' into Heq.
    apply string_app_inv_tail in Heq.
    apply (f_equal (fun s => read_x s 0)) in Heq.
    now rewrite !read_x_fmt_x in Heq by assumption.
Qed.

(** Injectivity at two spellings of the unknown event type 0x13. *)
Lemma EventType_String_injective_witness : 0x13 = 19.
Proof.
  apply (EventType_String_injective 0x13 19); [ lia | lia | reflexivity ].
Defined.


(** X4.  Parsing and printing agree on what a known event type is: a value
    that [UntrustedParseEventType] accepts comes back unchanged and
    prints as its name in the table, never in the numeric form, and a
    value it refuses prints in the numeric form. *)
Theorem UntrustedParseEventType_accepts_named_types (et : Z) :
  (forall e, UntrustedParseEventType et = Ok e ->
     e = et
     /\ eventTypeNames !! e = Some (EventType_String e)
     /\ EventType_String e <> ("EventType(0x" ++ fmt_x e "" ++ ")")%string)
  /\ (forall err, UntrustedParseEventType et = Err err ->
        EventType_String et = ("EventType(0x" ++ fmt_x et "" ++ ")")%string).
Proof.
  rewrite UntrustedParseEventType_lookup. unfold EventType_String, EventType. split.
  - intros e. destruct (eventTypeNames !! et) as [s|] eqn:Hs; [ | discriminate ].
    intros [= Heq]. subst e. rewrite Hs. repeat split.
    intros ->. apply eventTypeNames_not_numeric in Hs. apply Hs. reflexivity.
  - intros err. now destruct (eventTypeNames !! et).
Qed.
End WelProofs.

(* ===================================================================== *)
(** * Package client: properties *)
(* ===================================================================== *)
Module ClientProofs.
Import Tpm2 Client.

Section Loop.
Context {hstate W Dev : Type} `{!Crypto hstate} `{!Tpm2Device W Dev}.

(** One turn of the loop, with the monad unfolded. *)
Lemma sequenceUpdateLoop_step (device : option Dev) (auth : string) (sh : Handle)
    (buf : Buffer) (st : St) :
  sequenceUpdateLoop device auth sh buf st =
    let chunk := take maxDigestBufferSize buf in
    let st' := {| world := (SequenceUpdate device auth sh chunk (world st)).1;
                  issued := issued st ++ [CmdSequenceUpdate auth sh chunk] |} in
    match (SequenceUpdate device auth sh chunk (world st)).2 with
    | Some e => (st', Fail e)
    | None =>
        if decide (0 < length (drop maxDigestBufferSize buf))%nat
        then sequenceUpdateLoop device auth sh (drop maxDigestBufferSize buf) st'
        else (st', Return tt)
    end.
Proof.
  rewrite sequenceUpdateLoop_equation_1.
  unfold bind, issue, Buffer_Next, Buffer_Len, ret, of_error. cbn [fst snd].
  destruct (SequenceUpdate device auth sh (take maxDigestBufferSize buf) (world st))
    as [w' [e|]]; cbn [fst snd]; [ reflexivity | ].
  destruct (decide (0 < length (drop maxDigestBufferSize buf))%nat); reflexivity.
Qed.

(** Whatever the device answers, the loop starts by issuing one update
    with the first chunk. *)
Lemma sequenceUpdateLoop_first (device : option Dev) (auth : string) (sh : Handle)
    (buf : Buffer) (st : St) :
  exists more,
    issued (sequenceUpdateLoop device auth sh buf st).1 =
      issued st ++ CmdSequenceUpdate auth sh (take maxDigestBufferSize buf) :: more.
Proof.
  remember (length buf) as n eqn:Hn. revert buf st Hn.
  induction n as [n IH] using lt_wf_ind. intros buf st Hn.
  rewrite sequenceUpdateLoop_step. cbn zeta.
  destruct (SequenceUpdate device auth sh (take maxDigestBufferSize buf) (world st))
    as [w' [e|]]; cbn [fst snd].
  - exists []. reflexivity.
  - destruct (decide (0 < length (drop maxDigestBufferSize buf))%nat) as [Hpos | Hz].
    + rewrite length_drop in Hpos.
      edestruct (IH (length (drop maxDigestBufferSize buf))) as [more Hmore];
        [ rewrite length_drop; unfold maxDigestBufferSize in *; lia | reflexivity | ].
      rewrite Hmore. cbn [issued]. rewrite <- app_assoc. cbn. eauto.
    + exists []. reflexivity.
Qed.

(** On an empty buffer the loop is exactly one update with an empty chunk. *)
Lemma sequenceUpdateLoop_nil (device : option Dev) (auth : string) (sh : Handle)
    (st : St) :
  sequenceUpdateLoop device auth sh [] st =
    ({| world := (SequenceUpdate device auth sh [] (world st)).1;
        issued := issued st ++ [CmdSequenceUpdate auth sh []] |},
     of_error (SequenceUpdate device auth sh [] (world st)).2).
Proof.
  rewrite sequenceUpdateLoop_step.
  change (take maxDigestBufferSize (@nil byte)) with (@nil byte).
  change (drop maxDigestBufferSize (@nil byte)) with (@nil byte).
  cbn zeta.
  destruct (SequenceUpdate device auth sh [] (world st)) as [w' [e|]]; reflexivity.
Qed.

(** The commands of a whole call, given that its start returned [sh]. *)
Lemma HashWithSequencing_issued (data : list byte) (h : option crypto_Hash)
    (device : option Dev) (auth : string) (hh : option Handle) (st st1 : St)
    (sh : Handle) :
  startHashSequence h device auth hh st = (st1, Return sh) ->
  (exists more,
      issued (HashWithSequencing data (h, device) auth hh st).1 =
        issued st1 ++ CmdSequenceUpdate auth sh (take maxDigestBufferSize data) :: more)
  /\ (data = [] ->
      exists tail,
        issued (HashWithSequencing data (h, device) auth hh st).1 =
          issued st1 ++ CmdSequenceUpdate auth sh [] :: tail
        /\ (tail = [] \/
            exists hierarchy, tail = [CmdSequenceComplete auth sh hierarchy []])).
Proof.
  intros Hstart. unfold HashWithSequencing, ByteSliceToBuffer.
  unfold bind. rewrite !Hstart. split.
  - destruct (sequenceUpdateLoop_first device auth sh data st1) as [more Hmore].
    destruct (sequenceUpdateLoop device auth sh data st1) as [st2 [[]|e|]];
      cbn [fst] in *; eauto.
    destruct hh as [hierarchy|]; unfold issue, panic; cbn; eauto.
    destruct (SequenceComplete device auth sh hierarchy [] (world st2)).
    cbn. rewrite Hmore, <- app_assoc. cbn. eauto.
  - intros ->. rewrite sequenceUpdateLoop_nil.
    destruct (SequenceUpdate device auth sh [] (world st1)) as [w' [e|]]; cbn.
    + exists []. eauto.
    + destruct hh as [hierarchy|]; unfold issue, panic; cbn.
      * destruct (SequenceComplete device auth sh hierarchy [] w'). cbn.
        rewrite <- app_assoc. cbn. eauto.
      * exists []. eauto.
Qed.

Lemma EventWithSequencing_issued (data : list byte) (h : option crypto_Hash)
    (device : option Dev) (auth pcrAuth : string) (pcr : Handle) (st st1 : St)
    (sh : Handle) :
  startEventSequence h device auth st = (st1, Return sh) ->
  (exists more,
      issued (EventWithSequencing data (h, device) auth pcrAuth pcr st).1 =
        issued st1 ++ CmdSequenceUpdate auth sh (take maxDigestBufferSize data) :: more)
  /\ (data = [] ->
      exists tail,
        issued (EventWithSequencing data (h, device) auth pcrAuth pcr st).1 =
          issued st1 ++ CmdSequenceUpdate auth sh [] :: tail
        /\ (tail = [] \/
            tail = [CmdEventSequenceComplete pcrAuth auth pcr sh []])).
Proof.
  intros Hstart. unfold EventWithSequencing, ByteSliceToBuffer.
  unfold bind. rewrite !Hstart. split.
  - destruct (sequenceUpdateLoop_first device auth sh data st1) as [more Hmore].
    destruct (sequenceUpdateLoop device auth sh data st1) as [st2 [[]|e|]];
      cbn [fst] in *; eauto.
    unfold issue.
    destruct (EventSequenceComplete device pcrAuth auth pcr sh [] (world st2)).
    cbn. rewrite Hmore, <- app_assoc. cbn. eauto.
  - intros ->. rewrite sequenceUpdateLoop_nil.
    destruct (SequenceUpdate device auth sh [] (world st1)) as [w' [e|]]; cbn.
    + exists []. eauto.
    + unfold issue. cbn.
      destruct (EventSequenceComplete device pcrAuth auth pcr sh [] w'). cbn.
      rewrite <- app_assoc. cbn. eauto.
Qed.

(** C10.  A call that gets past its start (the algorithm resolves and,
    where a sequence is started, the device returns a handle) issues at
    least one [SequenceUpdate], carrying the first chunk, whatever the
    length of the data.  On empty data it issues exactly one, with an
    empty chunk, and nothing follows it but the completion of the
    sequence. *)
Theorem sequence_update_loop_runs_at_least_once (data : list byte)
    (h : option crypto_Hash) (device : option Dev) (auth pcrAuth : string)
    (hh : option Handle) (pcr : Handle) (st : St) :
  (forall st1 sh,
      startHashSequence h device auth hh st = (st1, Return sh) ->
      (exists more,
          issued (HashWithSequencing data (h, device) auth hh st).1 =
            issued st1
              ++ CmdSequenceUpdate auth sh (take maxDigestBufferSize data) :: more)
      /\ (data = [] ->
          exists tail,
            issued (HashWithSequencing data (h, device) auth hh st).1 =
              issued st1 ++ CmdSequenceUpdate auth sh [] :: tail
            /\ (tail = [] \/
                exists hierarchy, tail = [CmdSequenceComplete auth sh hierarchy []])))
  /\ (forall st1 sh,
      startEventSequence h device auth st = (st1, Return sh) ->
      (exists more,
          issued (EventWithSequencing data (h, device) auth pcrAuth pcr st).1 =
            issued st1
              ++ CmdSequenceUpdate auth sh (take maxDigestBufferSize data) :: more)
      /\ (data = [] ->
          exists tail,
            issued (EventWithSequencing data (h, device) auth pcrAuth pcr st).1 =
              issued st1 ++ CmdSequenceUpdate auth sh [] :: tail
            /\ (tail = [] \/
                tail = [CmdEventSequenceComplete pcrAuth auth pcr sh []]))).
Proof.
  split; intros st1 sh Hstart.
  - now apply HashWithSequencing_issued.
  - now apply EventWithSequencing_issued.
Qed.

End Loop.

(** ** The simulated TPM *)
Section Simulated.
Context {hstate : Type} `{!Crypto hstate}.
Variable alg_init : Algorithm -> option hstate.

#[local] Existing Instance SimDevice.

Lemma hash_Write_app (s : hstate) (a b : list byte) :
  hash_Write (hash_Write s a) b = hash_Write s (a ++ b).
Proof. unfold hash_Write. now rewrite fold_left_app. Qed.

(** On an open sequence the loop never fails: it feeds the buffer in
    chunks of at most [maxDigestBufferSize] bytes, in order, and leaves
    the sequence in the state of a hash that absorbed the whole buffer. *)
Lemma sequenceUpdateLoop_sim (auth : string) (sh : Handle) (buf : Buffer) :
  forall (w : SimTPM) (cmds : list Command) (sq : SimSeq),
    sequences w !! sh = Some sq ->
    seq_auth sq = auth ->
    exists chunks,
      sequenceUpdateLoop (Tpm2Device0 := SimDevice alg_init) (Some tt) auth sh buf
        {| world := w; issued := cmds |} =
        ({| world :=
              {| sequences :=
                   <[sh := {| seq_auth := auth; seq_alg := seq_alg sq;
                              seq_state := hash_Write (seq_state sq) buf |}]>
                     (sequences w);
                 next_handle := next_handle w |};
            issued := cmds ++ map (CmdSequenceUpdate auth sh) chunks |},
         Return tt)
      /\ chunks <> []
      /\ Forall (fun c => (length c <= maxDigestBufferSize)%nat) chunks
      /\ concat chunks = buf.
Proof.
  remember (length buf) as n eqn:Hn. revert buf Hn.
  induction n as [n IH] using lt_wf_ind. intros buf Hn w cmds sq Hsq Hauth.
  rewrite sequenceUpdateLoop_step. cbn [world issued SequenceUpdate SimDevice].
  unfold sim_SequenceUpdate. rewrite Hsq.
  destruct (decide (seq_auth sq = auth)) as [_ | Hne]; [ | contradiction ].
  cbn [fst snd]. rewrite Hauth.
  set (chunk := take maxDigestBufferSize buf).
  set (sq' := {| seq_auth := auth; seq_alg := seq_alg sq;
                 seq_state := hash_Write (seq_state sq) chunk |}).
  set (w' := {| sequences := <[sh := sq']> (sequences w);
                next_handle := next_handle w |}).
  destruct (decide (0 < length (drop maxDigestBufferSize buf))%nat) as [Hpos | Hz].
  - assert (Hlt : (length (drop maxDigestBufferSize buf) < n)%nat).
    { rewrite length_drop in *. unfold maxDigestBufferSize in *. lia. }
    destruct (IH _ Hlt (drop maxDigestBufferSize buf) eq_refl w'
                (cmds ++ [CmdSequenceUpdate auth sh chunk]) sq'
                (lookup_insert_eq _ _ _) eq_refl)
      as (chunks & Hrun & Hne & Hlen & Hcat).
    exists (chunk :: chunks).
    rewrite Hrun. subst w' sq'. cbn [sequences next_handle seq_auth seq_alg seq_state].
    rewrite insert_insert_eq, hash_Write_app. subst chunk.
    rewrite take_drop, <- app_assoc.
    split; [ reflexivity | ].
    split; [ discriminate | ].
    split; [ constructor; [ rewrite length_take; lia | assumption ] | ].
    cbn. now rewrite Hcat, take_drop.
  - exists [chunk].
    assert (Hall : chunk = buf).
    { subst chunk. apply take_ge. rewrite length_drop in Hz. lia. }
    subst w' sq'. rewrite Hall.
    split; [ reflexivity | ].
    split; [ discriminate | ].
    split; [ constructor; [ rewrite length_drop in Hz; lia | constructor ] | ].
    cbn. now rewrite app_nil_r.
Qed.

(** C8.  When the TPM runs for [alg] the hash the library runs for [h],
    hashing locally (no device) and hashing through a sequence of the
    simulated TPM give the same digest, and the sequence was fed the data
    in order, in chunks of at most [maxDigestBufferSize] = 1024 bytes
    whose concatenation is the data. *)
Theorem Hash_local_eq_HashWithSequencing (data : list byte) (h : crypto_Hash)
    (alg : Algorithm) (s0 : hstate) (auth : string) (hierarchy : Handle)
    (w : SimTPM) :
  HashToAlgorithm h = Ok alg ->
  hash_New h = Some s0 ->
  alg_init alg = Some s0 ->
  maxDigestBufferSize = 1024%nat
  /\ exists digest ticket st' chunks,
      Hash (Tpm2Device0 := SimDevice alg_init) data (Some h, None) None None
        {| world := w; issued := [] |}
        = ({| world := w; issued := [] |}, Return (digest, None))
      /\ HashWithSequencing (Tpm2Device0 := SimDevice alg_init) data
           (Some h, Some tt) auth (Some hierarchy) {| world := w; issued := [] |}
         = (st', Return (digest, ticket))
      /\ digest = hash_digest (hash_Write s0 data)
      /\ updateChunks (issued st') = chunks
      /\ Forall (fun c => (length c <= maxDigestBufferSize)%nat) chunks
      /\ concat chunks = data.
Proof.
  intros Halg Hnew Hinit. split; [ reflexivity | ].
  set (w1 := {| sequences :=
                  <[next_handle w :=
                      {| seq_auth := auth; seq_alg := alg; seq_state := s0 |}]>
                    (sequences w);
                next_handle := next_handle w + 1 |}).
  destruct (sequenceUpdateLoop_sim auth (next_handle w) data w1
              [CmdHashSequenceStart auth alg]
              {| seq_auth := auth; seq_alg := alg; seq_state := s0 |})
    as (chunks & Hrun & Hne & Hlen & Hcat);
    [ apply lookup_insert_eq | reflexivity | ].
  eexists _, _, _, chunks.
  split; [ | split; [ | split; [ | split; [ | split ] ] ] ]; try eassumption.
  - unfold Hash. rewrite Hnew. unfold ret, hash_Sum. reflexivity.
  - unfold HashWithSequencing, startHashSequence, resolveAlg, ByteSliceToBuffer,
      bind, of_result, issue.
    rewrite Halg.
    cbn [world issued HashSequenceStart SequenceComplete SimDevice].
    unfold sim_HashSequenceStart. rewrite Hinit. cbn [to_outcome app].
    fold w1. rewrite Hrun.
    cbn [world issued]. unfold sim_SequenceComplete.
    cbn [sequences next_handle]. rewrite lookup_insert_eq.
    cbn [seq_auth seq_state].
    destruct (decide (auth = auth)) as [_ | Hne']; [ | contradiction ].
    unfold hash_Write at 1. cbn [fold_left to_outcome]. reflexivity.
  - reflexivity.
  - cbn [issued]. unfold updateChunks.
    rewrite !omap_app. cbn [omap]. cbn. rewrite app_nil_r.
    clear. induction chunks as [|c cs IH]; [ reflexivity | cbn; now rewrite IH ].
Qed.

End Simulated.

#[local] Existing Instance ToyCrypto.

(** The toy library and the simulated TPM, on three bytes under SHA-256. *)
Lemma Hash_local_eq_HashWithSequencing_witness :
  maxDigestBufferSize = 1024%nat
  /\ exists digest ticket st' chunks,
      Hash (Crypto0 := ToyCrypto) (Tpm2Device0 := SimDevice toy_alg_init)
        [x01; x02; x03] (Some 5, None) None None
        {| world := toy_world; issued := [] |}
        = ({| world := toy_world; issued := [] |}, Return (digest, None))
      /\ HashWithSequencing (Crypto0 := ToyCrypto)
           (Tpm2Device0 := SimDevice toy_alg_init) [x01; x02; x03]
           (Some 5, Some tt) "" (Some 1) {| world := toy_world; issued := [] |}
         = (st', Return (digest, ticket))
      /\ digest = hash_digest (Crypto := ToyCrypto)
                    (hash_Write (H := ToyCrypto) 5 [x01; x02; x03])
      /\ updateChunks (issued st') = chunks
      /\ Forall (fun c => (length c <= maxDigestBufferSize)%nat) chunks
      /\ concat chunks = [x01; x02; x03].
Proof.
  exact (Hash_local_eq_HashWithSequencing (Crypto0 := ToyCrypto) toy_alg_init
           [x01; x02; x03] 5 AlgSHA256 5 "" 1 toy_world eq_refl eq_refl eq_refl).
Defined.

(** Both functions on empty data, with the toy library and the simulated
    TPM: the sequence is started, updated once with no bytes, completed. *)
Lemma sequence_update_loop_runs_at_least_once_witness :
  ((exists more,
       issued (HashWithSequencing (Crypto0 := ToyCrypto)
                 (Tpm2Device0 := SimDevice toy_alg_init) [] (Some 5, Some tt) ""
                 (Some 1) {| world := toy_world; issued := [] |}).1 =
         [CmdHashSequenceStart "" AlgSHA256]
           ++ CmdSequenceUpdate "" 0x80000000 (take maxDigestBufferSize []) :: more)
   /\ (@nil byte = [] ->
       exists tail,
         issued (HashWithSequencing (Crypto0 := ToyCrypto)
                   (Tpm2Device0 := SimDevice toy_alg_init) [] (Some 5, Some tt) ""
                   (Some 1) {| world := toy_world; issued := [] |}).1 =
           [CmdHashSequenceStart "" AlgSHA256]
             ++ CmdSequenceUpdate "" 0x80000000 [] :: tail
         /\ (tail = [] \/
             exists hierarchy,
               tail = [CmdSequenceComplete "" 0x80000000 hierarchy []])))
  /\ ((exists more,
         issued (EventWithSequencing (Crypto0 := ToyCrypto)
                   (Tpm2Device0 := SimDevice toy_alg_init) [] (Some 5, Some tt) ""
                   "" 16 {| world := toy_world; issued := [] |}).1 =
           [CmdHashSequenceStart "" AlgSHA256]
             ++ CmdSequenceUpdate "" 0x80000000 (take maxDigestBufferSize []) :: more)
      /\ (@nil byte = [] ->
          exists tail,
            issued (EventWithSequencing (Crypto0 := ToyCrypto)
                      (Tpm2Device0 := SimDevice toy_alg_init) [] (Some 5, Some tt) ""
                      "" 16 {| world := toy_world; issued := [] |}).1 =
              [CmdHashSequenceStart "" AlgSHA256]
                ++ CmdSequenceUpdate "" 0x80000000 [] :: tail
            /\ (tail = [] \/
                tail = [CmdEventSequenceComplete "" "" 16 0x80000000 []]))).
Proof.
  pose proof (sequence_update_loop_runs_at_least_once (Crypto0 := ToyCrypto)
                (Tpm2Device0 := SimDevice toy_alg_init) [] (Some 5) (Some tt)
                "" "" (Some 1) 16 {| world := toy_world; issued := [] |}) as [Hh He].
  split.
  - exact (Hh _ 0x80000000 eq_refl).
  - exact (He _ 0x80000000 eq_refl).
Defined.

(** ** The chunks fed by the loops, whatever the device answers *)

Lemma numChunks_small (len : nat) :
  (len <= maxDigestBufferSize)%nat -> numChunks len = 1%nat.
Proof.
  unfold numChunks, maxDigestBufferSize. intros Hlen.
  assert (((len + (1024 - 1)) / 1024 < 2)%nat).
  { apply Nat.Div0.div_lt_upper_bound. lia. }
  lia.
Qed.

Lemma numChunks_large (len : nat) :
  (maxDigestBufferSize < len)%nat ->
  numChunks len = S (numChunks (len - maxDigestBufferSize)).
Proof.
  unfold numChunks, maxDigestBufferSize. intros Hlen.
  replace (len + (1024 - 1))%nat with ((len - 1024 + (1024 - 1)) + 1 * 1024)%nat by lia.
  rewrite Nat.div_add by lia.
  assert ((1 <= (len - 1024 + (1024 - 1)) / 1024)%nat).
  { apply Nat.div_le_lower_bound; lia. }
  lia.
Qed.

Lemma chunksOf_last (buf : list byte) :
  ~ (0 < length (drop maxDigestBufferSize buf))%nat ->
  numChunks (length buf) = 1%nat /\ chunksOf buf = [buf].
Proof.
  intros Hz. rewrite length_drop in Hz.
  assert (Hn : numChunks (length buf) = 1%nat) by (apply numChunks_small; lia).
  split; [ exact Hn | ]. unfold chunksOf. rewrite Hn. cbn [chunks].
  rewrite take_ge by lia. reflexivity.
Qed.

Lemma chunksOf_more (buf : list byte) :
  (0 < length (drop maxDigestBufferSize buf))%nat ->
  numChunks (length buf) = S (numChunks (length (drop maxDigestBufferSize buf)))
  /\ chunksOf buf
     = take maxDigestBufferSize buf :: chunksOf (drop maxDigestBufferSize buf).
Proof.
  intros Hpos. rewrite length_drop in Hpos.
  assert (Hn : numChunks (length buf)
               = S (numChunks (length (drop maxDigestBufferSize buf)))).
  { rewrite length_drop. apply numChunks_large. lia. }
  split; [ exact Hn | ]. unfold chunksOf. rewrite Hn. reflexivity.
Qed.

(** The canonical chunks: as many as [numChunks] says, the whole buffer
    when put together, none above the ceiling, all full but the last. *)
Lemma chunksOf_facts (buf : list byte) :
  length (chunksOf buf) = numChunks (length buf)
  /\ concat (chunksOf buf) = buf
  /\ Forall (fun c => (length c <= maxDigestBufferSize)%nat) (chunksOf buf)
  /\ (forall i c, (S i < numChunks (length buf))%nat ->
                  chunksOf buf !! i = Some c ->
                  length c = maxDigestBufferSize).
Proof.
  remember (length buf) as len eqn:Hlen. revert buf Hlen.
  induction len as [len IH] using lt_wf_ind. intros buf ->.
  destruct (decide (0 < length (drop maxDigestBufferSize buf))%nat) as [Hpos | Hz].
  - destruct (chunksOf_more buf Hpos) as [Hn Hc]. rewrite Hn, Hc.
    assert (Hlt : (length (drop maxDigestBufferSize buf) < length buf)%nat).
    { rewrite length_drop in *. unfold maxDigestBufferSize in *. lia. }
    destruct (IH _ Hlt (drop maxDigestBufferSize buf) eq_refl)
      as (Hlen' & Hcat & Hall & Hfull).
    split; [ cbn [length]; now rewrite Hlen' | ].
    split; [ cbn [concat]; now rewrite Hcat, take_drop | ].
    split; [ constructor; [ rewrite length_take; lia | exact Hall ] | ].
    intros [|i] c Hi Hlook; cbn in Hlook.
    + injection Hlook as <-. rewrite length_take. rewrite length_drop in Hpos.
      unfold maxDigestBufferSize in *. lia.
    + apply (Hfull i c); [ lia | exact Hlook ].
  - destruct (chunksOf_last buf Hz) as [Hn Hc]. rewrite Hn, Hc.
    rewrite length_drop in Hz.
    split; [ reflexivity | ].
    split; [ cbn; now rewrite app_nil_r | ].
    split; [ constructor; [ lia | constructor ] | ].
    intros i c Hi. lia.
Qed.

Section LoopChunks.
Context {hstate W Dev : Type} `{!Crypto hstate} `{!Tpm2Device W Dev}.

(** The loop issues updates only: the first [k] canonical chunks, at
    least one, all of them when it succeeds; it returns or fails, and
    fails only with the error of its last update. *)
Lemma sequenceUpdateLoop_trace (device : option Dev) (auth : string) (sh : Handle)
    (buf : Buffer) (st : St) :
  exists k,
    (1 <= k <= numChunks (length buf))%nat
    /\ issued (sequenceUpdateLoop device auth sh buf st).1 =
         issued st ++ map (CmdSequenceUpdate auth sh) (take k (chunksOf buf))
    /\ ((sequenceUpdateLoop device auth sh buf st).2 = Return tt
        /\ k = numChunks (length buf)
        \/ exists e, (sequenceUpdateLoop device auth sh buf st).2 = Fail e).
Proof.
  remember (length buf) as len eqn:Hlen. revert buf st Hlen.
  induction len as [len IH] using lt_wf_ind. intros buf st ->.
  rewrite sequenceUpdateLoop_step. cbn zeta.
  destruct (SequenceUpdate device auth sh (take maxDigestBufferSize buf) (world st))
    as [w' [e|]]; cbn [fst snd].
  - exists 1%nat.
    assert (Hhd : take 1 (chunksOf buf) = [take maxDigestBufferSize buf]).
    { destruct (decide (0 < length (drop maxDigestBufferSize buf))%nat) as [Hpos | Hz].
      - destruct (chunksOf_more buf Hpos) as [_ ->]. reflexivity.
      - destruct (chunksOf_last buf Hz) as [_ ->]. cbn [take].
        rewrite length_drop in Hz. rewrite take_ge by lia. reflexivity. }
    rewrite Hhd.
    split; [ unfold numChunks; lia | ]. split; [ reflexivity | eauto ].
  - destruct (decide (0 < length (drop maxDigestBufferSize buf))%nat) as [Hpos | Hz].
    + destruct (chunksOf_more buf Hpos) as [Hn Hc].
      assert (Hlt : (length (drop maxDigestBufferSize buf) < length buf)%nat).
      { rewrite length_drop in *. unfold maxDigestBufferSize in *. lia. }
      destruct (IH _ Hlt (drop maxDigestBufferSize buf)
                  {| world := w';
                     issued := issued st
                       ++ [CmdSequenceUpdate auth sh (take maxDigestBufferSize buf)] |}
                  eq_refl) as (k & Hk & Hissued & Hout).
      exists (S k). rewrite Hn, Hc, Hissued. cbn [issued take map].
      rewrite <- app_assoc. cbn [app].
      split; [ lia | ]. split; [ reflexivity | ].
      destruct Hout as [[Hret ->] | [e He]]; [ left | right ]; eauto.
    + destruct (chunksOf_last buf Hz) as [Hn Hc].
      exists 1%nat. rewrite Hn, Hc. cbn [issued take map].
      rewrite length_drop in Hz. rewrite take_ge by lia.
      split; [ lia | ]. split; [ reflexivity | ]. left. auto.
Qed.

(** X5.  Whatever the device answers, the loop of [HashWithSequencing] and
    [EventWithSequencing] issues updates only, carrying the first [k]
    canonical chunks of the buffer, at least one; when it succeeds it
    has issued all of them, and otherwise it fails.  The canonical chunks
    are [max 1 (ceil (len / 1024))] many, none longer than 1024 bytes,
    all but the last exactly 1024 bytes long, and together the buffer. *)
Theorem sequenceUpdateLoop_feeds_canonical_chunks (device : option Dev)
    (auth : string) (sh : Handle) (buf : Buffer) (st : St) :
  (exists k,
      (1 <= k <= numChunks (length buf))%nat
      /\ issued (sequenceUpdateLoop device auth sh buf st).1 =
           issued st ++ map (CmdSequenceUpdate auth sh) (take k (chunksOf buf))
      /\ ((sequenceUpdateLoop device auth sh buf st).2 = Return tt
          /\ k = numChunks (length buf)
          \/ exists e, (sequenceUpdateLoop device auth sh buf st).2 = Fail e))
  /\ numChunks (length buf)
     = Nat.max 1 ((length buf + 1023) / 1024)
  /\ length (chunksOf buf) = numChunks (length buf)
  /\ concat (chunksOf buf) = buf
  /\ Forall (fun c => (length c <= 1024)%nat) (chunksOf buf)
  /\ (forall i c, (S i < numChunks (length buf))%nat ->
                  chunksOf buf !! i = Some c -> length c = 1024%nat).
Proof.
  split; [ apply sequenceUpdateLoop_trace | ].
  split; [ reflexivity | ]. apply chunksOf_facts.
Qed.

(** X6.  A call of [HashWithSequencing] that returns a digest had a hierarchy
    handle and issued exactly: the start of a sequence when there is a
    device, one update per canonical chunk of the data, all on one
    sequence handle (handle 0 without a device), and the completion on
    that handle. *)
Theorem HashWithSequencing_success_trace (data : list byte)
    (h : option crypto_Hash) (device : option Dev) (auth : string)
    (hh : option Handle) (st st' : St) (r : list byte * option Ticket) :
  HashWithSequencing data (h, device) auth hh st = (st', Return r) ->
  exists alg sh hierarchy,
    hh = Some hierarchy
    /\ (h = None /\ alg = AlgNull
        \/ exists h', h = Some h' /\ HashToAlgorithm h' = Ok alg)
    /\ (device = None -> sh = 0)
    /\ issued st' =
         issued st
           ++ match device with
              | Some _ => [CmdHashSequenceStart auth alg]
              | None => []
              end
           ++ map (CmdSequenceUpdate auth sh) (chunksOf data)
           ++ [CmdSequenceComplete auth sh hierarchy []].
Proof.
  unfold HashWithSequencing, startHashSequence, ByteSliceToBuffer, bind.
  destruct (resolveAlg h st) as [st0 [alg | e |]] eqn:Halg; try discriminate.
  assert (Hst0 : st0 = st
                 /\ (h = None /\ alg = AlgNull
                     \/ exists h', h = Some h' /\ HashToAlgorithm h' = Ok alg)).
  { unfold resolveAlg, of_result, ret in Halg. destruct h as [h'|].
    - destruct (HashToAlgorithm h') as [a | e] eqn:Hh; [ | discriminate ].
      injection Halg as <- <-. split; [ reflexivity | right; eauto ].
    - injection Halg as <- <-. auto. }
  destruct Hst0 as [-> Hres].
  destruct hh as [hierarchy|].
  - destruct device as [dev|].
    + unfold issue at 1.
      destruct (HashSequenceStart (Some dev) auth alg (world st)) as [w1 [sh | e]];
        cbn [to_outcome]; [ | discriminate ].
      match goal with
      | |- context [sequenceUpdateLoop ?d ?a ?s ?b ?x] =>
          destruct (sequenceUpdateLoop_trace d a s b x) as (k & Hk & Hiss & Hout);
          destruct (sequenceUpdateLoop d a s b x) as [st2 [[]|e|]] eqn:Hloop
      end; try discriminate.
      cbn [fst snd issued] in *.
      destruct Hout as [[_ ->] | [e [=]]].
      unfold issue.
      destruct (SequenceComplete (Some dev) auth sh hierarchy [] (world st2))
        as [w3 [r3 | e]]; cbn [to_outcome]; [ | discriminate ].
      intros [= <- _]. exists alg, sh, hierarchy. cbn [issued].
      rewrite Hiss, <- (proj1 (chunksOf_facts data)) at 1.
      rewrite firstn_all, <- !app_assoc. cbn [app].
      repeat split; auto. discriminate.
    + unfold ret at 1.
      match goal with
      | |- context [sequenceUpdateLoop ?d ?a ?s ?b ?x] =>
          destruct (sequenceUpdateLoop_trace d a s b x) as (k & Hk & Hiss & Hout);
          destruct (sequenceUpdateLoop d a s b x) as [st2 [[]|e|]] eqn:Hloop
      end; try discriminate.
      cbn [fst snd issued] in *.
      destruct Hout as [[_ ->] | [e [=]]].
      unfold issue.
      destruct (SequenceComplete None auth 0 hierarchy [] (world st2))
        as [w3 [r3 | e]]; cbn [to_outcome]; [ | discriminate ].
      intros [= <- _]. exists alg, 0, hierarchy. cbn [issued].
      rewrite Hiss, <- (proj1 (chunksOf_facts data)) at 1.
      rewrite firstn_all, <- !app_assoc. cbn [app].
      repeat split; auto.
  - assert (Hstart : exists st1 o,
               (match device with
                | Some _ => ret 0
                | None => ret 0
                end : M Handle) st = (st1, o) /\ o = Return 0 /\ st1 = st).
    { destruct device; unfold ret; eauto. }
    destruct Hstart as (st1 & o & -> & -> & ->).
    destruct (sequenceUpdateLoop device auth 0 data st) as [st2 [[]|e|]];
      unfold panic; discriminate.
Qed.

(** X7.  A call of [EventWithSequencing] that returns issued exactly: the
    start of a sequence when there is a device, one update per canonical
    chunk of the data, and the completion of the event sequence. *)
Theorem EventWithSequencing_success_trace (data : list byte)
    (h : option crypto_Hash) (device : option Dev) (auth pcrAuth : string)
    (pcr : Handle) (st st' : St) (r : list HashValue) :
  EventWithSequencing data (h, device) auth pcrAuth pcr st = (st', Return r) ->
  exists alg sh,
    (h = None /\ alg = AlgNull
     \/ exists h', h = Some h' /\ HashToAlgorithm h' = Ok alg)
    /\ (device = None -> sh = 0)
    /\ issued st' =
         issued st
           ++ match device with
              | Some _ => [CmdHashSequenceStart auth alg]
              | None => []
              end
           ++ map (CmdSequenceUpdate auth sh) (chunksOf data)
           ++ [CmdEventSequenceComplete pcrAuth auth pcr sh []].
Proof.
  unfold EventWithSequencing, startEventSequence, ByteSliceToBuffer, bind.
  destruct (resolveAlg h st) as [st0 [alg | e |]] eqn:Halg; try discriminate.
  assert (Hst0 : st0 = st
                 /\ (h = None /\ alg = AlgNull
                     \/ exists h', h = Some h' /\ HashToAlgorithm h' = Ok alg)).
  { unfold resolveAlg, of_result, ret in Halg. destruct h as [h'|].
    - destruct (HashToAlgorithm h') as [a | e] eqn:Hh; [ | discriminate ].
      injection Halg as <- <-. split; [ reflexivity | right; eauto ].
    - injection Halg as <- <-. auto. }
  destruct Hst0 as [-> Hres].
  destruct device as [dev|].
  - unfold issue at 1.
    destruct (HashSequenceStart (Some dev) auth alg (world st)) as [w1 [sh | e]];
      cbn [to_outcome]; [ | discriminate ].
    match goal with
    | |- context [sequenceUpdateLoop ?d ?a ?s ?b ?x] =>
        destruct (sequenceUpdateLoop_trace d a s b x) as (k & Hk & Hiss & Hout);
        destruct (sequenceUpdateLoop d a s b x) as [st2 [[]|e|]] eqn:Hloop
    end; try discriminate.
    cbn [fst snd issued] in *.
    destruct Hout as [[_ ->] | [e [=]]].
    unfold issue.
    destruct (EventSequenceComplete (Some dev) pcrAuth auth pcr sh [] (world st2))
      as [w3 [r3 | e]]; cbn [to_outcome]; [ | discriminate ].
    intros [= <- _]. exists alg, sh. cbn [issued].
    rewrite Hiss, <- (proj1 (chunksOf_facts data)) at 1.
    rewrite firstn_all, <- !app_assoc. cbn [app].
    repeat split; auto. discriminate.
  - unfold ret at 1.
    match goal with
    | |- context [sequenceUpdateLoop ?d ?a ?s ?b ?x] =>
        destruct (sequenceUpdateLoop_trace d a s b x) as (k & Hk & Hiss & Hout);
        destruct (sequenceUpdateLoop d a s b x) as [st2 [[]|e|]] eqn:Hloop
    end; try discriminate.
    cbn [fst snd issued] in *.
    destruct Hout as [[_ ->] | [e [=]]].
    unfold issue.
    destruct (EventSequenceComplete None pcrAuth auth pcr 0 [] (world st2))
      as [w3 [r3 | e]]; cbn [to_outcome]; [ | discriminate ].
    intros [= <- _]. exists alg, 0. cbn [issued].
    rewrite Hiss, <- (proj1 (chunksOf_facts data)) at 1.
    rewrite firstn_all, <- !app_assoc. cbn [app].
    repeat split; auto.
Qed.

(** X8.  A hash that [tpm2.HashToAlgorithm] refuses is refused by every path
    that goes to the TPM, with that error, before any command is issued
    and with the world untouched; the local path does not ask and still
    hashes with it when the hash is linked in. *)
Theorem unsupported_hash_rejected_before_any_command (data : list byte)
    (h : crypto_Hash) (e : error) (device : option Dev) (dev : Dev)
    (auth pcrAuth : string) (hh : option Handle) (hierarchy pcr : Handle)
    (st : St) :
  HashToAlgorithm h = Err e ->
  HashWithSequencing data (Some h, device) auth hh st = (st, Fail e)
  /\ EventWithSequencing data (Some h, device) auth pcrAuth pcr st = (st, Fail e)
  /\ Hash data (Some h, device) hh (Some auth) st = (st, Fail e)
  /\ Hash data (Some h, Some dev) (Some hierarchy) None st = (st, Fail e)
  /\ (forall s0, hash_New h = Some s0 ->
        Hash data (Some h, None) hh None st
          = (st, Return (hash_digest (hash_Write s0 data), None))).
Proof.
  intros Hh.
  assert (Hseq : HashWithSequencing data (Some h, device) auth hh st = (st, Fail e)).
  { unfold HashWithSequencing, startHashSequence, resolveAlg, bind, of_result.
    now rewrite Hh. }
  split; [ exact Hseq | ].
  split.
  { unfold EventWithSequencing, startEventSequence, resolveAlg, bind, of_result.
    now rewrite Hh. }
  split; [ exact Hseq | ].
  split.
  { unfold Hash, resolveAlg, bind, of_result. now rewrite Hh. }
  intros s0 Hnew. unfold Hash. rewrite Hnew.
  now destruct hh.
Qed.

(** X9.  With a nil hierarchy handle [HashWithSequencing] never returns a
    digest: no sequence is started, the data is still fed in updates to
    handle 0, and the call ends in an error or in the panic of the nil
    dereference; no completion is ever issued. *)
Theorem HashWithSequencing_nil_hierarchy_never_returns (data : list byte)
    (h : option crypto_Hash) (device : option Dev) (auth : string) (st : St) :
  match (HashWithSequencing data (h, device) auth None st).2 with
  | Return _ => False
  | _ => True
  end
  /\ (exists k,
        issued (HashWithSequencing data (h, device) auth None st).1 =
          issued st ++ map (CmdSequenceUpdate auth 0) (take k (chunksOf data)))
  /\ Hash data (h, device) None (Some auth) st
     = HashWithSequencing data (h, device) auth None st.
Proof.
  split; [ | split; [ | reflexivity ] ];
    unfold HashWithSequencing, startHashSequence, ByteSliceToBuffer, bind.
  - destruct (resolveAlg h st) as [st0 [alg | e |]]; cbn [snd]; try exact I.
    assert (Hret : (match device with
                    | Some _ => ret 0
                    | None => ret 0
                    end : M Handle) st0 = (st0, Return 0))
      by now destruct device.
    rewrite Hret.
    now destruct (sequenceUpdateLoop device auth 0 data st0) as [st2 [[]|e|]].
  - destruct (resolveAlg h st) as [st0 [alg | e |]] eqn:Halg.
    + assert (Hst0 : st0 = st).
      { unfold resolveAlg, of_result, ret in Halg. destruct h as [h'|];
          [ destruct (HashToAlgorithm h') | ]; congruence. }
      subst st0.
      assert (Hret : (match device with
                      | Some _ => ret 0
                      | None => ret 0
                      end : M Handle) st = (st, Return 0))
        by now destruct device.
      rewrite Hret.
      destruct (sequenceUpdateLoop_trace device auth 0 data st)
        as (k & _ & Hiss & _).
      exists k.
      now destruct (sequenceUpdateLoop device auth 0 data st) as [st2 [[]|e|]].
    + exists 0%nat. cbn [fst take map]. rewrite app_nil_r.
      unfold resolveAlg, of_result, ret in Halg. destruct h as [h'|];
        [ destruct (HashToAlgorithm h') | ]; congruence.
    + exists 0%nat. cbn [fst take map]. rewrite app_nil_r.
      unfold resolveAlg, of_result, ret in Halg. destruct h as [h'|];
        [ destruct (HashToAlgorithm h') | ]; congruence.
Qed.

End LoopChunks.


(** The toy library and the simulated TPM again: 2500 bytes under SHA-256
    go out as the start, three updates and the completion. *)
Lemma HashWithSequencing_success_trace_witness :
  exists alg sh hierarchy,
    Some 1 = Some hierarchy
    /\ (Some 5 = None /\ alg = AlgNull
        \/ exists h', Some 5 = Some h' /\ HashToAlgorithm h' = Ok alg)
    /\ (Some tt = None -> sh = 0)
    /\ issued (HashWithSequencing (Tpm2Device0 := SimDevice toy_alg_init)
                 (replicate 2500 x01) (Some 5, Some tt) "" (Some 1)
                 {| world := toy_world; issued := [] |}).1 =
         issued {| world := toy_world; issued := [] |}
           ++ [CmdHashSequenceStart "" alg]
           ++ map (CmdSequenceUpdate "" sh) (chunksOf (replicate 2500 x01))
           ++ [CmdSequenceComplete "" sh hierarchy []].
Proof.
  exact (HashWithSequencing_success_trace (Tpm2Device0 := SimDevice toy_alg_init)
           (replicate 2500 x01) (Some 5) (Some tt) "" (Some 1)
           {| world := toy_world; issued := [] |} _ _ eq_refl).
Defined.

Lemma EventWithSequencing_success_trace_witness :
  exists alg sh,
    (Some 5 = None /\ alg = AlgNull
     \/ exists h', Some 5 = Some h' /\ HashToAlgorithm h' = Ok alg)
    /\ (Some tt = None -> sh = 0)
    /\ issued (EventWithSequencing (Tpm2Device0 := SimDevice toy_alg_init)
                 (replicate 2500 x01) (Some 5, Some tt) "" "" 16
                 {| world := toy_world; issued := [] |}).1 =
         issued {| world := toy_world; issued := [] |}
           ++ [CmdHashSequenceStart "" alg]
           ++ map (CmdSequenceUpdate "" sh) (chunksOf (replicate 2500 x01))
           ++ [CmdEventSequenceComplete "" "" 16 sh []].
Proof.
  exact (EventWithSequencing_success_trace (Tpm2Device0 := SimDevice toy_alg_init)
           (replicate 2500 x01) (Some 5) (Some tt) "" "" 16
           {| world := toy_world; issued := [] |} _ _ eq_refl).
Defined.

(** SHA-224 (4) is known to the toy library and unknown to the TPM. *)
Lemma unsupported_hash_rejected_before_any_command_witness :
  HashWithSequencing (Tpm2Device0 := SimDevice toy_alg_init) [x01] (Some 4, Some tt)
    "" (Some 1) {| world := toy_world; issued := [] |}
    = ({| world := toy_world; issued := [] |},
       Fail "go hash algorithm has no TPM2 algorithm"%string)
  /\ EventWithSequencing (Tpm2Device0 := SimDevice toy_alg_init) [x01]
       (Some 4, Some tt) "" "" 16 {| world := toy_world; issued := [] |}
     = ({| world := toy_world; issued := [] |},
        Fail "go hash algorithm has no TPM2 algorithm"%string)
  /\ Hash (Tpm2Device0 := SimDevice toy_alg_init) [x01] (Some 4, Some tt) (Some 1)
       (Some ""%string) {| world := toy_world; issued := [] |}
     = ({| world := toy_world; issued := [] |},
        Fail "go hash algorithm has no TPM2 algorithm"%string)
  /\ Hash (Tpm2Device0 := SimDevice toy_alg_init) [x01] (Some 4, Some tt) (Some 1)
       None {| world := toy_world; issued := [] |}
     = ({| world := toy_world; issued := [] |},
        Fail "go hash algorithm has no TPM2 algorithm"%string)
  /\ (forall s0, hash_New 4 = Some s0 ->
        Hash (Tpm2Device0 := SimDevice toy_alg_init) [x01] (Some 4, None) (Some 1)
          None {| world := toy_world; issued := [] |}
          = ({| world := toy_world; issued := [] |},
             Return (hash_digest (hash_Write s0 [x01]), None))).
Proof.
  exact (unsupported_hash_rejected_before_any_command
           (Tpm2Device0 := SimDevice toy_alg_init) [x01] 4 _ (Some tt) tt "" "" (Some 1)
           1 16 {| world := toy_world; issued := [] |} eq_refl).
Defined.

End ClientProofs.

(* ===================================================================== *)
(** * Package client (template.go): properties *)
(* ===================================================================== *)
Module TemplateProofs.
Import Tpm2 Client Template.

(** X10.  [IDevIdIak] returns a template for [AlgSHA256] only, and then an RSA
    one: 2048 bits, no signing scheme, the label ("DEVID" or "IAK") in
    front of a 256-byte all-zero modulus, the signer attributes without
    [FlagRestricted], with [FlagAdminWithPolicy], and with
    [FlagUserWithAuth] as [*withUserAuth] says.  It panics on a nil
    [withUserAuth] and, whatever the other arguments, for [AlgRSA],
    [AlgECC], [AlgSHA384] and [AlgSHA512]; any other algorithm gets the
    zero [Public]. *)
Theorem IDevIdIak_outcomes :
  (forall createIak b,
      IDevIdIak AlgSHA256 createIak (Some b) =
        Return
          {| Type_ := AlgRSA; NameAlg := AlgSHA256;
             Attributes :=
               Z.lor FlagSign
                 (Z.lor FlagFixedTPM
                    (Z.lor FlagFixedParent
                       (Z.lor FlagSensitiveDataOrigin
                          (Z.lor FlagAdminWithPolicy
                             (if b then FlagUserWithAuth else 0)))));
             RSAParameters :=
               Some {| rsa_Sign := None; rsa_KeyBits := 2048;
                       ModulusRaw :=
                         (if createIak then iak else devId)
                           ++ replicate
                                (256 - length (if createIak then iak else devId))
                                x00 |};
             ECCParameters := None |})
  /\ (forall createIak, IDevIdIak AlgSHA256 createIak None = Panic)
  /\ (forall alg createIak withUserAuth,
        alg = AlgRSA \/ alg = AlgECC \/ alg = AlgSHA384 \/ alg = AlgSHA512 ->
        IDevIdIak alg createIak withUserAuth = Panic)
  /\ (forall alg createIak withUserAuth,
        alg <> AlgRSA -> alg <> AlgSHA256 -> alg <> AlgECC ->
        alg <> AlgSHA384 -> alg <> AlgSHA512 ->
        IDevIdIak alg createIak withUserAuth = Return Public_zero).
Proof.
  split; [ | split; [ | split ] ].
  - intros [] []; vm_compute; reflexivity.
  - intros []; reflexivity.
  - intros alg [] [[]|] [-> | [-> | [-> | ->]]]; reflexivity.
  - intros alg createIak withUserAuth H1 H2 H3 H4 H5.
    unfold IDevIdIak, IDevIdIak_switch.
    apply Z.eqb_neq in H1, H2, H3, H4, H5.
    now rewrite H1, H2, H3, H4, H5.
Qed.

End TemplateProofs.

(* ===================================================================== *)
(** * Package server: properties *)
(* ===================================================================== *)
Module ServerProofs.
Import Tpm2 Server.

(** ** Key equality *)

Lemma Curve_eqb_eq (c1 c2 : Curve) : Curve_eqb c1 c2 = true <-> c1 = c2.
Proof. destruct c1, c2; cbn; split; congruence. Qed.

Lemma pubKeysEqual_spec (ak trusted : PublicKey) :
  pubKeysEqual ak trusted = true <-> spec_keys_equal ak trusted.
Proof.
  destruct ak as [N E | c X Y | t], trusted as [N' E' | c' X' Y' | t']; cbn;
    try (split; [ discriminate | tauto ]).
  - rewrite andb_true_iff, !Z.eqb_eq. tauto.
  - rewrite !andb_true_iff, !Z.eqb_eq, Curve_eqb_eq. tauto.
Qed.

Lemma pubKeysEqual_other (ak : PublicKey) (tag : Z) :
  pubKeysEqual ak (OtherPublicKey tag) = false.
Proof. destruct ak; reflexivity. Qed.

Section Verify.
Context {D : Deps}.

(** ** Trust resolution *)

Lemma checkAkTrusted_None (ak : PublicKey) (opts : VerifyOpts) :
  checkAkTrusted ak opts = None <-> spec_AK_listed opts ak.
Proof.
  unfold checkAkTrusted, spec_AK_listed.
  destruct (decide (length (TrustedAKs opts) = 0%nat)) as [Hnil | Hcons].
  - apply length_zero_iff_nil in Hnil. rewrite Hnil. split; [ discriminate | ].
    intros (t & Hin & _). now apply elem_of_nil in Hin.
  - destruct (existsb (fun trusted => pubKeysEqual ak trusted) (TrustedAKs opts))
      eqn:Hex.
    + split; [ intros _ | reflexivity ].
      apply existsb_exists in Hex as (t & Hin & Heq).
      exists t. split; [ now apply list_elem_of_In | now apply pubKeysEqual_spec ].
    + split; [ discriminate | ]. intros (t & Hin & Heq).
      assert (Hex' : existsb (fun trusted => pubKeysEqual ak trusted)
                       (TrustedAKs opts) = true).
      { apply existsb_exists. exists t.
        split; [ now apply list_elem_of_In | now apply pubKeysEqual_spec ]. }
      congruence.
Qed.

Lemma validateAkCert_None (akCert : list byte) (opts : VerifyOpts) :
  validateAkCert akCert (IntermediateCerts opts) (TrustedRootCerts opts) = None
  <-> akCert <> [] /\ spec_AK_certified opts akCert.
Proof.
  unfold validateAkCert, spec_AK_certified.
  destruct (decide (length akCert = 0%nat)) as [Hnil | Hcons].
  - apply length_zero_iff_nil in Hnil. split; [ discriminate | tauto ].
  - assert (Hne : akCert <> []) by (intros ->; now apply Hcons).
    destruct (ParseCertificate akCert) as [cert | e] eqn:Hparse.
    + destruct (Certificate_Verify cert (TrustedRootCerts opts) (IntermediateCerts opts))
        as [e|] eqn:Hverify.
      * split; [ discriminate | ]. intros (_ & c & [= <-] & Hc). congruence.
      * split; [ | reflexivity ]. intros _. eauto.
    + split; [ discriminate | ]. intros (_ & c & Hc & _). discriminate.
Qed.

(** ** The loop over the candidate quotes *)

(** What one attempt can fail with. *)
Lemma tryQuote_Err (attestation : Attestation) (opts : VerifyOpts)
    (akPubKey : PublicKey) (quote : Quote) (e : VerifyError) :
  tryQuote attestation opts akPubKey quote = Err e ->
  (exists err, VerifyQuote quote akPubKey (Nonce opts) = Some err
               /\ e = ErrVerifyQuote err)
  \/ (exists err, parsePCClientEventLog (EventLog attestation) (Quote_GetPcrs quote)
                    = Err err /\ e = ErrPCClientEventLog err)
  \/ (exists err, parseCanonicalEventLog (CanonicalEventLog attestation)
                    (Quote_GetPcrs quote) = Err err
                  /\ e = ErrCanonicalEventLog err)
  \/ (exists err, checkHashAlgSupported (quoteAlg quote) opts = Some err
                  /\ e = ErrWhenVerifyingPCRs err).
Proof.
  unfold tryQuote, quoteAlg.
  destruct (VerifyQuote quote akPubKey (Nonce opts)) as [err|];
    [ intros [= <-]; eauto | ].
  destruct (parsePCClientEventLog _ _) as [state | err];
    [ | intros [= <-]; eauto 6 ].
  destruct (parseCanonicalEventLog _ _) as [celState | err];
    [ | intros [= <-]; eauto 8 ].
  destruct (checkHashAlgSupported _ opts) as [err|] eqn:Halg;
    [ intros [= <-]; eauto 10 | discriminate ].
Qed.

Lemma tryQuote_not_untrusted (attestation : Attestation) (opts : VerifyOpts)
    (akPubKey : PublicKey) (quote : Quote) (e : AkCertError) :
  tryQuote attestation opts akPubKey quote <> Err (ErrUntrustedAK e).
Proof.
  intros Hq. apply tryQuote_Err in Hq as
    [(? & _ & ?) | [(? & _ & ?) | [(? & _ & ?) | (? & _ & ?)]]]; discriminate.
Qed.

(** The quotes tried are the candidates up to the first success. *)
Lemma quoteLoop_prefix (attestation : Attestation) (opts : VerifyOpts)
    (akPubKey : PublicKey) (quotes : list Quote) (lastErr : option VerifyError) :
  (quoteLoop attestation opts akPubKey quotes lastErr).1 `prefix_of` quotes.
Proof.
  revert lastErr. induction quotes as [|q rest IH]; intros lastErr; cbn.
  - reflexivity.
  - destruct (tryQuote attestation opts akPubKey q) as [m | e].
    + cbn. now exists rest.
    + specialize (IH (Some e)).
      destruct (quoteLoop attestation opts akPubKey rest (Some e)) as [tried r].
      cbn in *. now apply prefix_cons.
Qed.

(** Failed attempts are stepped over: each records its error and the
    loop goes on with the next candidate. *)
Lemma quoteLoop_skip (attestation : Attestation) (opts : VerifyOpts)
    (akPubKey : PublicKey) (pre rest : list Quote) (lastErr : option VerifyError) :
  Forall (fun p => exists e, tryQuote attestation opts akPubKey p = Err e) pre ->
  exists lastErr',
    quoteLoop attestation opts akPubKey (pre ++ rest) lastErr =
      (pre ++ (quoteLoop attestation opts akPubKey rest lastErr').1,
       (quoteLoop attestation opts akPubKey rest lastErr').2)
    /\ (pre = [] -> lastErr' = lastErr)
    /\ (forall init p, pre = init ++ [p] ->
        exists e, tryQuote attestation opts akPubKey p = Err e /\ lastErr' = Some e).
Proof.
  intros Hpre. revert lastErr.
  induction Hpre as [|p pre [e He] Hpre IH]; intros lastErr.
  - exists lastErr. cbn. split; [ now destruct (quoteLoop _ _ _ rest lastErr) | ].
    split; [ reflexivity | ]. intros init p Heq. now destruct init.
  - destruct (IH (Some e)) as (lastErr' & Hrun & Hnil & Hlast).
    exists lastErr'. cbn. rewrite He, Hrun.
    split; [ reflexivity | ]. split; [ discriminate | ].
    intros init p' Heq. destruct init as [|p0 init]; cbn in Heq.
    + injection Heq as -> ->. exists e. split; [ assumption | now apply Hnil ].
    + injection Heq as -> ->. now apply (Hlast init).
Qed.

Lemma quoteLoop_first_success (attestation : Attestation) (opts : VerifyOpts)
    (akPubKey : PublicKey) (pre post : list Quote) (q : Quote) (m : MachineState)
    (lastErr : option VerifyError) :
  Forall (fun p => exists e, tryQuote attestation opts akPubKey p = Err e) pre ->
  tryQuote attestation opts akPubKey q = Ok m ->
  quoteLoop attestation opts akPubKey (pre ++ q :: post) lastErr = (pre ++ [q], Ok m).
Proof.
  intros Hpre Hq.
  destruct (quoteLoop_skip attestation opts akPubKey pre (q :: post) lastErr Hpre)
    as (lastErr' & -> & _).
  cbn. now rewrite Hq.
Qed.


(** An error of the loop: with no candidate, the error it started with
    or else the generic one; otherwise the error of the last attempt.
    Every candidate was tried. *)
Lemma quoteLoop_Err (attestation : Attestation) (opts : VerifyOpts)
    (akPubKey : PublicKey) (quotes tried : list Quote)
    (lastErr : option VerifyError) (e : VerifyError) :
  quoteLoop attestation opts akPubKey quotes lastErr = (tried, Err e) ->
  tried = quotes
  /\ ((quotes = [] /\ lastErr = Some e)
      \/ (quotes = [] /\ lastErr = None /\ e = ErrNoSupportedQuote)
      \/ exists init q, quotes = init ++ [q]
                        /\ tryQuote attestation opts akPubKey q = Err e).
Proof.
  revert tried lastErr. induction quotes as [|q rest IH]; intros tried lastErr; cbn.
  - destruct lastErr as [e0|]; intros [= <- <-]; (split; [ reflexivity | tauto ]).
  - destruct (tryQuote attestation opts akPubKey q) as [m | e0] eqn:Hq;
      [ discriminate | ].
    destruct (quoteLoop attestation opts akPubKey rest (Some e0)) as [tried' r]
      eqn:Hrest.
    intros [= <- ->]. destruct (IH _ _ Hrest) as (-> & Hcases).
    split; [ reflexivity | ]. right. right.
    destruct Hcases as [(-> & [= <-]) | [(_ & Hn & _) | (init & q' & -> & Hq')]].
    + exists [], q. auto.
    + discriminate.
    + exists (q :: init), q'. auto.
Qed.

(** ** The candidate quotes *)

Lemma appendFirstQuote_firstQuote (alg : Algorithm) (quotes out : list Quote) :
  appendFirstQuote alg quotes out = out ++ option_list (firstQuote alg quotes).
Proof.
  unfold firstQuote. induction quotes as [|q rest IH]; cbn.
  - now rewrite app_nil_r.
  - destruct (quoteAlg q =? alg); [ reflexivity | exact IH ].
Qed.

(** [supportedQuotes] keeps, for each algorithm in the order of
    preference, the first quote bearing it. *)
Lemma supportedQuotes_firsts (quotes : list Quote) :
  supportedQuotes quotes =
    omap (fun alg => firstQuote alg quotes) supportedHashAlgs.
Proof.
  unfold supportedQuotes, supportedHashAlgs. cbn [fold_left].
  rewrite !appendFirstQuote_firstQuote. cbn [omap list_omap app].
  destruct (firstQuote AlgSHA512 quotes), (firstQuote AlgSHA384 quotes),
    (firstQuote AlgSHA256 quotes), (firstQuote AlgSHA1 quotes); reflexivity.
Qed.

Lemma firstQuote_Some (alg : Algorithm) (quotes : list Quote) (q : Quote) :
  firstQuote alg quotes = Some q -> q ∈ quotes /\ quoteAlg q = alg.
Proof.
  unfold firstQuote. intros Hf. apply find_some in Hf as [Hin Heq].
  split; [ now apply list_elem_of_In | now apply Z.eqb_eq ].
Qed.

Lemma supportedQuotes_elem (quotes : list Quote) (q : Quote) :
  q ∈ supportedQuotes quotes ->
  quoteAlg q ∈ supportedHashAlgs /\ firstQuote (quoteAlg q) quotes = Some q.
Proof.
  rewrite supportedQuotes_firsts. intros Hin.
  apply list_elem_of_omap in Hin as (alg & Halg & Hf).
  destruct (firstQuote_Some _ _ _ Hf) as [_ <-]. auto.
Qed.

Lemma filter_firstQuotes (quotes : list Quote) (alg : Algorithm)
    (algs : list Algorithm) :
  NoDup algs ->
  List.filter (fun q => quoteAlg q =? alg)
    (omap (fun a => firstQuote a quotes) algs) =
    if bool_decide (alg ∈ algs) then option_list (firstQuote alg quotes) else [].
Proof.
  induction 1 as [|a algs Hnotin Hnd IH]; [ reflexivity | ].
  cbn [omap list_omap]. fold (omap (fun a => firstQuote a quotes) algs).
  destruct (decide (a = alg)) as [-> | Hne].
  - rewrite bool_decide_eq_true_2 by (apply elem_of_cons; now left).
    rewrite bool_decide_eq_false_2 in IH by assumption.
    destruct (firstQuote alg quotes) as [q|] eqn:Hf; cbn; [ | exact IH ].
    destruct (firstQuote_Some _ _ _ Hf) as [_ Halg].
    apply Z.eqb_eq in Halg. now rewrite Halg, IH.
  - assert (Hdec : bool_decide (alg ∈ a :: algs) = bool_decide (alg ∈ algs)).
    { apply bool_decide_ext. rewrite elem_of_cons. intuition congruence. }
    rewrite Hdec.
    destruct (firstQuote a quotes) as [q|] eqn:Hf; cbn; [ | exact IH ].
    destruct (firstQuote_Some _ _ _ Hf) as [_ Halg].
    assert (Hneq : (quoteAlg q =? alg) = false) by (apply Z.eqb_neq; congruence).
    now rewrite Hneq.
Qed.

Lemma supportedHashAlgs_NoDup : NoDup supportedHashAlgs.
Proof.
  unfold supportedHashAlgs. repeat constructor;
    rewrite ?elem_of_cons, elem_of_nil; vm_compute; intuition discriminate.
Qed.

(** ** From [VerifyAttestation] to its loop *)

Lemma verifyQuotes_tried (attestation : Attestation) (opts : VerifyOpts)
    (akPubArea : Public) (akPubKey : PublicKey) :
  (verifyQuotes attestation opts akPubArea akPubKey).1
    `prefix_of` supportedQuotes (Quotes attestation).
Proof.
  unfold verifyQuotes.
  destruct (GetSigningHashAlg akPubArea) as [alg | e]; [ | apply prefix_nil ].
  destruct (checkHashAlgSupported alg opts); [ apply prefix_nil | ].
  apply quoteLoop_prefix.
Qed.

Lemma VerifyAttestation_tried (attestation : Attestation) (opts : VerifyOpts) :
  (VerifyAttestation attestation opts).1
    `prefix_of` supportedQuotes (Quotes attestation).
Proof.
  unfold VerifyAttestation.
  destruct (DecodePublic (AkPub attestation)) as [area | e]; [ | apply prefix_nil ].
  destruct (Public_Key area) as [key | e]; [ | apply prefix_nil ].
  destruct (match checkAkTrusted key opts with
            | Some _ => validateAkCert _ _ _
            | None => None
            end); [ apply prefix_nil | apply verifyQuotes_tried ].
Qed.

Lemma verifyQuotes_not_untrusted (attestation : Attestation) (opts : VerifyOpts)
    (akPubArea : Public) (akPubKey : PublicKey) (tried : list Quote)
    (e : AkCertError) :
  verifyQuotes attestation opts akPubArea akPubKey <> (tried, Err (ErrUntrustedAK e)).
Proof.
  unfold verifyQuotes.
  destruct (GetSigningHashAlg akPubArea) as [alg | e0]; [ | discriminate ].
  destruct (checkHashAlgSupported alg opts); [ discriminate | ].
  intros Hloop. apply quoteLoop_Err in Hloop as (_ & Hcases).
  destruct Hcases as [(_ & ?) | [(_ & _ & ?) | (init & q & _ & Hq)]];
    try discriminate.
  now apply tryQuote_not_untrusted in Hq.
Qed.

(** Past the checks on the AK, a call is its loop over the candidates. *)
Lemma VerifyAttestation_loop (attestation : Attestation) (opts : VerifyOpts)
    (akPubArea : Public) (akPubKey : PublicKey) (signHashAlg : Algorithm) :
  DecodePublic (AkPub attestation) = Ok akPubArea ->
  Public_Key akPubArea = Ok akPubKey ->
  (checkAkTrusted akPubKey opts = None
   \/ validateAkCert (AkCert attestation) (IntermediateCerts opts)
        (TrustedRootCerts opts) = None) ->
  GetSigningHashAlg akPubArea = Ok signHashAlg ->
  checkHashAlgSupported signHashAlg opts = None ->
  VerifyAttestation attestation opts =
    quoteLoop attestation opts akPubKey (supportedQuotes (Quotes attestation)) None.
Proof.
  intros Hdec Hkey Htrust Hsign Halg.
  unfold VerifyAttestation, verifyQuotes. rewrite Hdec, Hkey, Hsign, Halg.
  destruct Htrust as [-> | Hcert]; [ reflexivity | ].
  rewrite Hcert. now destruct (checkAkTrusted akPubKey opts).
Qed.

(** C1.  Given that an empty byte string is no certificate and that the
    AK public area decodes to a key, the call goes on past trust
    resolution exactly when (a) a key of [opts.TrustedAKs] equals the AK,
    per key type, or (b) the AK certificate parses and verifies against
    the pools; otherwise, and only then, it returns the untrusted-AK
    error, which carries the certificate path's failure next to the
    statement that the AK is untrusted, having tried no quote.  A trusted
    key that is neither an RSA nor an ECDSA key never compares equal. *)
Theorem VerifyAttestation_trust_resolution (attestation : Attestation)
    (opts : VerifyOpts) (akPubArea : Public) (akPubKey : PublicKey) :
  (forall cert, ParseCertificate [] <> Ok cert) ->
  DecodePublic (AkPub attestation) = Ok akPubArea ->
  Public_Key akPubArea = Ok akPubKey ->
  ((spec_AK_listed opts akPubKey \/ spec_AK_certified opts (AkCert attestation))
   <-> VerifyAttestation attestation opts
       = verifyQuotes attestation opts akPubArea akPubKey)
  /\ (~ (spec_AK_listed opts akPubKey \/ spec_AK_certified opts (AkCert attestation))
      <-> exists e,
          validateAkCert (AkCert attestation) (IntermediateCerts opts)
            (TrustedRootCerts opts) = Some e
          /\ VerifyAttestation attestation opts = ([], Err (ErrUntrustedAK e)))
  /\ (forall tag, pubKeysEqual akPubKey (OtherPublicKey tag) = false).
Proof.
  intros Hempty Hdec Hkey.
  assert (Hcert : validateAkCert (AkCert attestation) (IntermediateCerts opts)
                    (TrustedRootCerts opts) = None
                  <-> spec_AK_certified opts (AkCert attestation)).
  { rewrite validateAkCert_None. split; [ tauto | ].
    intros Hc. split; [ | assumption ].
    intros Hnil. destruct Hc as (cert & Hparse & _).
    rewrite Hnil in Hparse. now apply Hempty in Hparse. }
  pose proof (checkAkTrusted_None akPubKey opts) as Hlist.
  unfold VerifyAttestation. rewrite Hdec, Hkey.
  destruct (checkAkTrusted akPubKey opts) as [e0|].
  - destruct (validateAkCert (AkCert attestation) (IntermediateCerts opts)
                (TrustedRootCerts opts)) as [e|].
    + assert (Hno : ~ (spec_AK_listed opts akPubKey
                       \/ spec_AK_certified opts (AkCert attestation))).
      { intros [Hl | Hc]; [ apply Hlist in Hl | apply Hcert in Hc ]; discriminate. }
      split; [ | split; [ | apply pubKeysEqual_other ] ].
      * split; [ tauto | ]. intros Heq. symmetry in Heq.
        now apply verifyQuotes_not_untrusted in Heq.
      * split; [ eauto | intros _; exact Hno ].
    + split; [ | split; [ | apply pubKeysEqual_other ] ].
      * split; [ reflexivity | ]. intros _. right. now apply Hcert.
      * split; [ | intros (e & [=] & _) ].
        intros Hno. exfalso. apply Hno. right. now apply Hcert.
  - split; [ | split; [ | apply pubKeysEqual_other ] ].
    + split; [ reflexivity | ]. intros _. left. now apply Hlist.
    + split.
      * intros Hno. exfalso. apply Hno. left. now apply Hlist.
      * intros (e & _ & Heq).
        now apply verifyQuotes_not_untrusted in Heq.
Qed.

(** ** The merged state *)

Lemma tryQuote_Ok (attestation : Attestation) (opts : VerifyOpts)
    (akPubKey : PublicKey) (quote : Quote) (m : MachineState) :
  tryQuote attestation opts akPubKey quote = Ok m <->
  exists state celState,
    VerifyQuote quote akPubKey (Nonce opts) = None
    /\ parsePCClientEventLog (EventLog attestation) (Quote_GetPcrs quote) = Ok state
    /\ parseCanonicalEventLog (CanonicalEventLog attestation) (Quote_GetPcrs quote)
       = Ok celState
    /\ checkHashAlgSupported (quoteAlg quote) opts = None
    /\ m = proto_Merge celState state.
Proof.
  unfold tryQuote, quoteAlg. split.
  - destruct (VerifyQuote quote akPubKey (Nonce opts)); [ discriminate | ].
    destruct (parsePCClientEventLog _ _) as [state | err]; [ | discriminate ].
    destruct (parseCanonicalEventLog _ _) as [celState | err]; [ | discriminate ].
    destruct (checkHashAlgSupported _ opts) eqn:Halg; [ discriminate | ].
    intros [= <-]. exists state, celState. auto.
  - intros (state & celState & -> & -> & -> & -> & ->). reflexivity.
Qed.

Lemma proto_Merge_lookup (dst src : MachineState) (p : list Z) :
  proto_Merge dst src !! p =
    match dst !! p, src !! p with
    | Some d, Some s => Some (merge_field d s)
    | Some d, None => Some d
    | None, Some s => Some s
    | None, None => None
    end.
Proof.
  unfold proto_Merge. rewrite lookup_union_with.
  now destruct (dst !! p), (src !! p).
Qed.

(** C3, as amended.  Once the AK checks pass, when every earlier
    candidate failed and a candidate's signature verifies, both logs
    parse and replay and its PCR hash algorithm is supported and
    allowed, the call returns [proto.Merge(celState, state)]: on a fact
    both states hold as a scalar the value of the legacy (PCClient)
    state stands; a list both hold becomes the canonical elements
    followed by the legacy ones; a fact held by one state only is kept
    as it is; and the merged state holds nothing else. *)
Theorem VerifyAttestation_returns_merged_state (attestation : Attestation)
    (opts : VerifyOpts) (akPubArea : Public) (akPubKey : PublicKey)
    (signHashAlg : Algorithm) (pre post : list Quote) (quote : Quote)
    (state celState : MachineState) :
  DecodePublic (AkPub attestation) = Ok akPubArea ->
  Public_Key akPubArea = Ok akPubKey ->
  (checkAkTrusted akPubKey opts = None
   \/ validateAkCert (AkCert attestation) (IntermediateCerts opts)
        (TrustedRootCerts opts) = None) ->
  GetSigningHashAlg akPubArea = Ok signHashAlg ->
  checkHashAlgSupported signHashAlg opts = None ->
  supportedQuotes (Quotes attestation) = pre ++ quote :: post ->
  Forall (fun p => exists e, tryQuote attestation opts akPubKey p = Err e) pre ->
  VerifyQuote quote akPubKey (Nonce opts) = None ->
  parsePCClientEventLog (EventLog attestation) (Quote_GetPcrs quote) = Ok state ->
  parseCanonicalEventLog (CanonicalEventLog attestation) (Quote_GetPcrs quote)
    = Ok celState ->
  checkHashAlgSupported (quoteAlg quote) opts = None ->
  VerifyAttestation attestation opts
    = (pre ++ [quote], Ok (proto_Merge celState state))
  /\ (forall p v, state !! p = Some (Scalar v) ->
                  proto_Merge celState state !! p = Some (Scalar v))
  /\ (forall p c l, celState !! p = Some (Repeated c) ->
                    state !! p = Some (Repeated l) ->
                    proto_Merge celState state !! p = Some (Repeated (c ++ l)))
  /\ (forall p x, celState !! p = Some x -> state !! p = None ->
                  proto_Merge celState state !! p = Some x)
  /\ (forall p x, state !! p = Some x -> celState !! p = None ->
                  proto_Merge celState state !! p = Some x)
  /\ (forall p, is_Some (proto_Merge celState state !! p) <->
                is_Some (celState !! p) \/ is_Some (state !! p)).
Proof.
  intros Hdec Hkey Htrust Hsign Halg Hcands Hpre Hverify Hlegacy Hcel Hpcr.
  split; [ | repeat split ].
  - rewrite (VerifyAttestation_loop _ _ _ _ _ Hdec Hkey Htrust Hsign Halg), Hcands.
    apply quoteLoop_first_success; [ assumption | ].
    apply tryQuote_Ok. exists state, celState. auto.
  - intros p v Hs. rewrite proto_Merge_lookup, Hs.
    now destruct (celState !! p) as [[]|].
  - intros p c l Hc Hs. now rewrite proto_Merge_lookup, Hc, Hs.
  - intros p x Hc Hs. now rewrite proto_Merge_lookup, Hc, Hs.
  - intros p x Hs Hc. now rewrite proto_Merge_lookup, Hc, Hs.
  - rewrite proto_Merge_lookup.
    destruct (celState !! p), (state !! p); intros [x Hx]; eauto; discriminate.
  - rewrite proto_Merge_lookup.
    destruct (celState !! p), (state !! p); intros [[x Hx] | [x Hx]];
      eauto; discriminate.
Qed.


(** C9.  [supportedQuotes] returns, for each supported algorithm, the first
    quote of the input that bears it and no other, and nothing for any
    other algorithm; so every quote [VerifyAttestation] tries is the
    first of the attestation with its algorithm, and it tries at most one
    per algorithm. *)
Theorem supportedQuotes_first_per_algorithm (attestation : Attestation)
    (opts : VerifyOpts) (quotes : list Quote) :
  (forall alg,
      List.filter (fun q => quoteAlg q =? alg) (supportedQuotes quotes) =
        if bool_decide (alg ∈ supportedHashAlgs)
        then option_list (firstQuote alg quotes) else [])
  /\ (forall q, q ∈ (VerifyAttestation attestation opts).1 ->
        quoteAlg q ∈ supportedHashAlgs
        /\ firstQuote (quoteAlg q) (Quotes attestation) = Some q)
  /\ (forall alg,
        (length (List.filter (fun q => (quoteAlg q =? alg)%Z)
                   (VerifyAttestation attestation opts).1) <= 1)%nat).
Proof.
  assert (Hfilter : forall quotes alg,
      List.filter (fun q => quoteAlg q =? alg) (supportedQuotes quotes) =
        if bool_decide (alg ∈ supportedHashAlgs)
        then option_list (firstQuote alg quotes) else []).
  { intros qs alg. rewrite supportedQuotes_firsts.
    apply filter_firstQuotes, supportedHashAlgs_NoDup. }
  destruct (VerifyAttestation_tried attestation opts) as [rest Hrest].
  split; [ apply Hfilter | split ].
  - intros q Hin. apply supportedQuotes_elem. rewrite Hrest.
    apply elem_of_app. now left.
  - intros alg.
    pose proof (Hfilter (Quotes attestation) alg) as Hf.
    rewrite Hrest, List.filter_app in Hf.
    apply (f_equal length) in Hf. rewrite length_app in Hf.
    destruct (bool_decide (alg ∈ supportedHashAlgs));
      [ destruct (firstQuote alg (Quotes attestation)) | ]; cbn in Hf; lia.
Qed.


End Verify.

(** ** The theorems at work on the small instance *)

(** C1 at an attestation whose AK (modulus 1) is listed in [TrustedAKs]. *)
Lemma VerifyAttestation_trust_resolution_witness :
  ((spec_AK_listed (toy_opts false) (RSAPublicKey 1 65537)
    \/ spec_AK_certified (toy_opts false) (AkCert (toy_attestation [quoteSHA256])))
   <-> VerifyAttestation (D := ToyDeps) (toy_attestation [quoteSHA256]) (toy_opts false)
       = verifyQuotes (D := ToyDeps) (toy_attestation [quoteSHA256]) (toy_opts false)
           (1, 11) (RSAPublicKey 1 65537))
  /\ (~ (spec_AK_listed (toy_opts false) (RSAPublicKey 1 65537)
         \/ spec_AK_certified (toy_opts false)
              (AkCert (toy_attestation [quoteSHA256])))
      <-> exists e,
          validateAkCert (D := ToyDeps) (AkCert (toy_attestation [quoteSHA256]))
            (IntermediateCerts (toy_opts false)) (TrustedRootCerts (toy_opts false))
            = Some e
          /\ VerifyAttestation (D := ToyDeps) (toy_attestation [quoteSHA256])
               (toy_opts false) = ([], Err (ErrUntrustedAK e)))
  /\ (forall tag, pubKeysEqual (RSAPublicKey 1 65537) (OtherPublicKey tag) = false).
Proof.
  apply (VerifyAttestation_trust_resolution (D := ToyDeps)
           (toy_attestation [quoteSHA256]) (toy_opts false) (1, 11)
           (RSAPublicKey 1 65537)).
  - intros cert. discriminate.
  - reflexivity.
  - reflexivity.
Defined.



(** C3, the claim as stated, fails at a verified SHA-256 quote whose two
    logs disagree on field 4: the canonical state says [0x0c], the legacy
    state [0x0a], and the state returned says [0x0a]. *)
Lemma VerifyAttestation_legacy_value_wins :
  parsePCClientEventLog (Deps := ToyDeps) (EventLog (toy_attestation [quoteSHA256]))
    (Quote_GetPcrs quoteSHA256)
    = Ok (<[ [4] := Scalar [x0a] ]> {[ [3] := Repeated [[x0a]] ]})
  /\ parseCanonicalEventLog (Deps := ToyDeps)
       (CanonicalEventLog (toy_attestation [quoteSHA256])) (Quote_GetPcrs quoteSHA256)
     = Ok (<[ [4] := Scalar [x0c] ]> {[ [7; 1] := Scalar [x0c] ]})
  /\ exists m,
      VerifyAttestation (D := ToyDeps) (toy_attestation [quoteSHA256]) (toy_opts false)
        = ([quoteSHA256], Ok m)
      /\ m !! [4] = Some (Scalar [x0a])
      /\ m !! [4] <> (<[ [4] := Scalar [x0c] ]>
                        ({[ [7; 1] := Scalar [x0c] ]} : MachineState)) !! [4]
      /\ m !! [7; 1] = Some (Scalar [x0c])
      /\ m !! [3] = Some (Repeated [[x0a]]).
Proof.
  split; [ reflexivity | split; [ reflexivity | ] ].
  eexists. split; [ reflexivity | ].
  repeat split; try reflexivity. vm_compute. discriminate.
Qed.

(** C3 as amended, at the same attestation. *)
Lemma VerifyAttestation_returns_merged_state_witness :
  VerifyAttestation (D := ToyDeps) (toy_attestation [quoteSHA256]) (toy_opts false)
    = ([] ++ [quoteSHA256],
       Ok (proto_Merge (<[ [4] := Scalar [x0c] ]> {[ [7; 1] := Scalar [x0c] ]})
             (<[ [4] := Scalar [x0a] ]> {[ [3] := Repeated [[x0a]] ]}))).
Proof.
  refine (proj1 (VerifyAttestation_returns_merged_state (D := ToyDeps)
                   (toy_attestation [quoteSHA256]) (toy_opts false) (1, 11)
                   (RSAPublicKey 1 65537) 11 [] [] quoteSHA256 _ _
                   eq_refl eq_refl (or_introl eq_refl) eq_refl eq_refl eq_refl
                   (List.Forall_nil _) eq_refl eq_refl eq_refl eq_refl)).
Defined.


(** ** Key equality and the trusted list *)

Lemma pubKeysEqual_eq (k1 k2 : PublicKey) :
  pubKeysEqual k1 k2 = true <->
  k1 = k2 /\ ((exists N E, k1 = RSAPublicKey N E)
              \/ (exists curve X Y, k1 = ECDSAPublicKey curve X Y)).
Proof.
  rewrite pubKeysEqual_spec.
  destruct k1 as [N E | c X Y | t], k2 as [N' E' | c' X' Y' | t']; cbn.
  - split; [ intros [-> ->]; eauto | intros [[= -> ->] _]; auto ].
  - split; [ tauto | intros [[=] _] ].
  - split; [ tauto | intros [[=] _] ].
  - split; [ tauto | intros [[=] _] ].
  - split; [ intros (-> & -> & ->); eauto 6 | intros [[= -> -> ->] _]; auto ].
  - split; [ tauto | intros [[=] _] ].
  - split; [ tauto | intros [[=] _] ].
  - split; [ tauto | intros [[=] _] ].
  - split; [ tauto | intros [_ [(? & ? & [=]) | (? & ? & ? & [=])]] ].
Qed.

(** X11.  [pubKeysEqual] is a partial equivalence: it holds only between a key
    and itself, it is symmetric, and a key equals itself exactly when it
    is an RSA or an ECDSA key. *)
Theorem pubKeysEqual_partial_equivalence :
  (forall k1 k2, pubKeysEqual k1 k2 = true -> k1 = k2)
  /\ (forall k1 k2, pubKeysEqual k1 k2 = pubKeysEqual k2 k1)
  /\ (forall k, pubKeysEqual k k = true <->
                (exists N E, k = RSAPublicKey N E)
                \/ (exists curve X Y, k = ECDSAPublicKey curve X Y)).
Proof.
  split; [ | split ].
  - intros k1 k2 H. now apply pubKeysEqual_eq in H.
  - intros k1 k2.
    destruct (pubKeysEqual k1 k2) eqn:H12, (pubKeysEqual k2 k1) eqn:H21;
      try reflexivity.
    + pose proof (proj1 (pubKeysEqual_eq _ _) H12) as [<- _]. congruence.
    + pose proof (proj1 (pubKeysEqual_eq _ _) H21) as [<- _]. congruence.
  - intros k. rewrite pubKeysEqual_eq. tauto.
Qed.

Section VerifyMore.
Context {D : Deps}.

(** X12.  [checkAkTrusted] accepts exactly an RSA or ECDSA AK that occurs in
    [TrustedAKs]: an AK of any other type is refused even when listed,
    an empty list is refused with its own error, and adding keys to the
    list never revokes trust. *)
Theorem checkAkTrusted_accepts_listed_keys (ak : PublicKey) (opts opts' : VerifyOpts) :
  (checkAkTrusted ak opts = None <->
   ak ∈ TrustedAKs opts
   /\ ((exists N E, ak = RSAPublicKey N E)
       \/ (exists curve X Y, ak = ECDSAPublicKey curve X Y)))
  /\ (TrustedAKs opts = [] -> checkAkTrusted ak opts = Some ErrNoMechanism)
  /\ (TrustedAKs opts <> [] -> checkAkTrusted ak opts <> Some ErrNoMechanism)
  /\ (TrustedAKs opts ⊆ TrustedAKs opts' ->
      checkAkTrusted ak opts = None -> checkAkTrusted ak opts' = None).
Proof.
  assert (Hiff : forall o : VerifyOpts,
             checkAkTrusted ak o = None <->
             ak ∈ TrustedAKs o
             /\ ((exists N E, ak = RSAPublicKey N E)
                 \/ (exists curve X Y, ak = ECDSAPublicKey curve X Y))).
  { intros o. rewrite checkAkTrusted_None. unfold spec_AK_listed. split.
    - intros (t & Hin & Heq). apply pubKeysEqual_spec, pubKeysEqual_eq in Heq.
      destruct Heq as [<- Hk]. auto.
    - intros [Hin Hk]. exists ak. split; [ assumption | ].
      apply pubKeysEqual_spec, pubKeysEqual_eq. auto. }
  split; [ apply Hiff | ].
  split; [ intros Hnil; unfold checkAkTrusted; now rewrite Hnil | ].
  split.
  - intros Hne. unfold checkAkTrusted.
    destruct (decide (length (TrustedAKs opts) = 0%nat)) as [Hz | _].
    + now apply length_zero_iff_nil in Hz.
    + now destruct (existsb _ _).
  - intros Hsub H. apply Hiff in H as [Hin Hk]. apply Hiff. auto.
Qed.

(** ** The hash-algorithm policy *)

Lemma checkHashAlgSupported_None (hash : Algorithm) (opts : VerifyOpts) :
  checkHashAlgSupported hash opts = None <->
  hash ∈ supportedHashAlgs /\ (hash = AlgSHA1 -> AllowSHA1 opts = true).
Proof.
  unfold checkHashAlgSupported.
  destruct (Z.eqb_spec hash AlgSHA1) as [-> | Hne]; cbn [andb].
  - destruct (AllowSHA1 opts); cbn [negb].
    + split; [ intros _ | reflexivity ].
      split; [ | reflexivity ]. unfold supportedHashAlgs.
      rewrite !elem_of_cons. tauto.
    + split; [ discriminate | ]. intros [_ H]. discriminate (H eq_refl).
  - destruct (existsb (fun alg => hash =? alg) supportedHashAlgs) eqn:Hex.
    + split; [ intros _ | reflexivity ]. split; [ | tauto ].
      apply existsb_exists in Hex as (alg & Hin & Heq).
      apply Z.eqb_eq in Heq. subst alg. now apply list_elem_of_In.
    + split; [ discriminate | ]. intros [Hin _].
      assert (existsb (fun alg => hash =? alg) supportedHashAlgs = true).
      { apply existsb_exists. exists hash.
        split; [ now apply list_elem_of_In | apply Z.eqb_refl ]. }
      congruence.
Qed.

(** ** What a result of VerifyAttestation tells *)

Lemma quoteLoop_Ok (attestation : Attestation) (opts : VerifyOpts)
    (akPubKey : PublicKey) (quotes tried : list Quote)
    (lastErr : option VerifyError) (m : MachineState) :
  quoteLoop attestation opts akPubKey quotes lastErr = (tried, Ok m) ->
  exists pre q post,
    quotes = pre ++ q :: post
    /\ tried = pre ++ [q]
    /\ Forall (fun p => exists e, tryQuote attestation opts akPubKey p = Err e) pre
    /\ tryQuote attestation opts akPubKey q = Ok m.
Proof.
  revert tried lastErr. induction quotes as [|q rest IH]; intros tried lastErr; cbn.
  - destruct lastErr; discriminate.
  - destruct (tryQuote attestation opts akPubKey q) as [m0 | e] eqn:Hq.
    + intros [= <- <-]. exists [], q, rest. repeat split; auto.
    + destruct (quoteLoop attestation opts akPubKey rest (Some e)) as [tried' r]
        eqn:Hrest.
      intros [= <- ->].
      destruct (IH _ _ Hrest) as (pre & q' & post & -> & -> & Hpre & Hq').
      exists (q :: pre), q', post. repeat split; auto.
      constructor; eauto.
Qed.

(** A result that is not one of the five errors of the AK checks comes
    from the loop, past those checks. *)
Lemma VerifyAttestation_past_checks (attestation : Attestation) (opts : VerifyOpts)
    (tried : list Quote) (r : result VerifyError MachineState) :
  VerifyAttestation attestation opts = (tried, r) ->
  (tried = []
   /\ ((exists e, r = Err (ErrDecodeAKPublicArea e))
       \/ (exists e, r = Err (ErrGetAKPublicKey e))
       \/ (exists e, r = Err (ErrUntrustedAK e))
       \/ (exists e, r = Err (ErrBadAKPublicArea e))
       \/ (exists e, r = Err (ErrInAKPublicArea e))))
  \/ exists akPubArea akPubKey signHashAlg,
      akChecksPass attestation opts akPubArea akPubKey signHashAlg
      /\ quoteLoop attestation opts akPubKey (supportedQuotes (Quotes attestation))
           None = (tried, r).
Proof.
  unfold VerifyAttestation, verifyQuotes, akChecksPass.
  destruct (DecodePublic (AkPub attestation)) as [area | e] eqn:Hdec;
    [ | intros [= <- <-]; left; eauto ].
  destruct (Public_Key area) as [key | e] eqn:Hkey;
    [ | intros [= <- <-]; left; eauto 6 ].
  destruct (checkAkTrusted key opts) as [e0|] eqn:Hlist.
  - destruct (validateAkCert (AkCert attestation) (IntermediateCerts opts)
                (TrustedRootCerts opts)) as [e|] eqn:Hcert;
      [ intros [= <- <-]; left; eauto 7 | ].
    destruct (GetSigningHashAlg area) as [alg | e] eqn:Hsign;
      [ | intros [= <- <-]; left; eauto 8 ].
    destruct (checkHashAlgSupported alg opts) as [e|] eqn:Halg;
      [ intros [= <- <-]; left; eauto 9 | ].
    intros Hloop. right. exists area, key, alg. auto 10.
  - destruct (GetSigningHashAlg area) as [alg | e] eqn:Hsign;
      [ | intros [= <- <-]; left; eauto 8 ].
    destruct (checkHashAlgSupported alg opts) as [e|] eqn:Halg;
      [ intros [= <- <-]; left; eauto 9 | ].
    intros Hloop. right. exists area, key, alg. auto 10.
Qed.

(** X13.  Soundness.  A machine state is returned only if the AK decoded, was
    trusted through the list or through its certificate, signs with a
    supported and allowed hash, and the last quote tried is a quote of
    the attestation whose signature verified against that AK and the
    nonce, whose PCR bank is supported and (for SHA-1) allowed, and
    against whose PCRs both logs replayed; the state is the merge of the
    two replays; every quote tried before it failed. *)
Theorem VerifyAttestation_sound (attestation : Attestation) (opts : VerifyOpts)
    (tried : list Quote) (m : MachineState) :
  VerifyAttestation attestation opts = (tried, Ok m) ->
  exists akPubArea akPubKey signHashAlg pre quote state celState,
    DecodePublic (AkPub attestation) = Ok akPubArea
    /\ Public_Key akPubArea = Ok akPubKey
    /\ (spec_AK_listed opts akPubKey
        \/ AkCert attestation <> [] /\ spec_AK_certified opts (AkCert attestation))
    /\ GetSigningHashAlg akPubArea = Ok signHashAlg
    /\ signHashAlg ∈ supportedHashAlgs
    /\ (signHashAlg = AlgSHA1 -> AllowSHA1 opts = true)
    /\ tried = pre ++ [quote]
    /\ Forall (fun p => exists e, tryQuote attestation opts akPubKey p = Err e) pre
    /\ quote ∈ Quotes attestation
    /\ VerifyQuote quote akPubKey (Nonce opts) = None
    /\ quoteAlg quote ∈ supportedHashAlgs
    /\ (quoteAlg quote = AlgSHA1 -> AllowSHA1 opts = true)
    /\ parsePCClientEventLog (EventLog attestation) (Quote_GetPcrs quote) = Ok state
    /\ parseCanonicalEventLog (CanonicalEventLog attestation) (Quote_GetPcrs quote)
       = Ok celState
    /\ m = proto_Merge celState state.
Proof.
  intros Hva.
  destruct (VerifyAttestation_past_checks _ _ _ _ Hva)
    as [(_ & Herr) | (area & key & alg & Hchecks & Hloop)].
  { destruct Herr as [(? & [=]) | [(? & [=]) | [(? & [=]) | [(? & [=]) | (? & [=])]]]]. }
  destruct Hchecks as (Hdec & Hkey & Htrust & Hsign & Halg).
  apply checkHashAlgSupported_None in Halg as [Hin Hsha1].
  apply quoteLoop_Ok in Hloop as (pre & q & post & Hcands & -> & Hpre & Hq).
  apply tryQuote_Ok in Hq as (state & cel & Hv & Hl & Hc & Hqalg & ->).
  apply checkHashAlgSupported_None in Hqalg as [Hqin Hqsha1].
  exists area, key, alg, pre, q, state, cel.
  repeat (split; [ assumption | ]).
  split.
  { destruct Htrust as [Hl' | Hc'].
    - left. now apply checkAkTrusted_None.
    - right. now apply validateAkCert_None. }
  repeat (split; [ assumption | ]).
  split; [ reflexivity | ].
  split; [ assumption | ].
  split.
  { assert (Hqc : q ∈ supportedQuotes (Quotes attestation)).
    { rewrite Hcands. apply elem_of_app. right. apply elem_of_cons. now left. }
    apply supportedQuotes_elem in Hqc as [_ Hf].
    now apply firstQuote_Some in Hf. }
  auto 10.
Qed.

(** ** Lifting the SHA-1 ban *)

Lemma checkHashAlgSupported_withAllowSHA1 (hash : Algorithm) (opts : VerifyOpts) :
  checkHashAlgSupported hash opts = None ->
  checkHashAlgSupported hash (withAllowSHA1 opts) = None.
Proof. rewrite !checkHashAlgSupported_None. cbn. tauto. Qed.

Lemma checkHashAlgSupported_withAllowSHA1_other (hash : Algorithm) (opts : VerifyOpts) :
  hash <> AlgSHA1 ->
  checkHashAlgSupported hash (withAllowSHA1 opts) = checkHashAlgSupported hash opts.
Proof.
  intros Hne. unfold checkHashAlgSupported.
  destruct (Z.eqb_spec hash AlgSHA1); [ contradiction | reflexivity ].
Qed.

Lemma tryQuote_withAllowSHA1_Ok (attestation : Attestation) (opts : VerifyOpts)
    (akPubKey : PublicKey) (quote : Quote) (m : MachineState) :
  tryQuote attestation opts akPubKey quote = Ok m ->
  tryQuote attestation (withAllowSHA1 opts) akPubKey quote = Ok m.
Proof.
  rewrite !tryQuote_Ok. intros (state & cel & Hv & Hl & Hc & Halg & ->).
  exists state, cel. repeat split; try assumption.
  now apply checkHashAlgSupported_withAllowSHA1.
Qed.

Lemma tryQuote_withAllowSHA1_other (attestation : Attestation) (opts : VerifyOpts)
    (akPubKey : PublicKey) (quote : Quote) :
  quoteAlg quote <> AlgSHA1 ->
  tryQuote attestation (withAllowSHA1 opts) akPubKey quote
  = tryQuote attestation opts akPubKey quote.
Proof.
  intros Hne. unfold tryQuote. cbn [Nonce withAllowSHA1].
  fold (quoteAlg quote).
  now rewrite checkHashAlgSupported_withAllowSHA1_other.
Qed.

(** A SHA-1 quote can only be the last candidate. *)
Lemma supportedQuotes_SHA1_last (quotes pre post : list Quote) (q : Quote) :
  supportedQuotes quotes = pre ++ q :: post ->
  Forall (fun p => quoteAlg p <> AlgSHA1) pre.
Proof.
  rewrite supportedQuotes_firsts.
  change supportedHashAlgs with ([AlgSHA512; AlgSHA384; AlgSHA256] ++ [AlgSHA1]).
  rewrite omap_app.
  set (strong := omap (fun alg => firstQuote alg quotes)
                   [AlgSHA512; AlgSHA384; AlgSHA256]).
  assert (Hstrong : Forall (fun p => quoteAlg p <> AlgSHA1) strong).
  { apply Forall_forall. intros p Hp.
    apply list_elem_of_omap in Hp as (alg & Halg & Hf).
    apply firstQuote_Some in Hf as [_ ->].
    rewrite !elem_of_cons, elem_of_nil in Halg.
    destruct Halg as [-> | [-> | [-> | []]]]; discriminate. }
  assert (Hlast : (length (omap (fun alg => firstQuote alg quotes) [AlgSHA1]) <= 1)%nat).
  { cbn [omap list_omap]. destruct (firstQuote AlgSHA1 quotes); cbn; lia. }
  intros Heq. symmetry in Heq.
  apply app_eq_app in Heq as [l [[-> Hl] | [Hs _]]].
  - rewrite Hl, length_app in Hlast. cbn [length] in Hlast.
    destruct l; [ now rewrite app_nil_r | cbn [length] in Hlast; lia ].
  - rewrite Hs in Hstrong. now apply Forall_app in Hstrong as [? _].
Qed.

(** X14.  Allowing SHA-1 never turns a success into a failure, and leaves the
    quotes tried and the state returned as they are. *)
Theorem VerifyAttestation_success_survives_AllowSHA1 (attestation : Attestation)
    (opts : VerifyOpts) (tried : list Quote) (m : MachineState) :
  VerifyAttestation attestation opts = (tried, Ok m) ->
  VerifyAttestation attestation (withAllowSHA1 opts) = (tried, Ok m).
Proof.
  intros Hva.
  destruct (VerifyAttestation_past_checks _ _ _ _ Hva)
    as [(_ & Herr) | (area & key & alg & Hchecks & Hloop)].
  { destruct Herr as [(? & [=]) | [(? & [=]) | [(? & [=]) | [(? & [=]) | (? & [=])]]]]. }
  destruct Hchecks as (Hdec & Hkey & Htrust & Hsign & Halg).
  rewrite (VerifyAttestation_loop attestation (withAllowSHA1 opts) area key alg);
    try assumption; [ | now apply checkHashAlgSupported_withAllowSHA1 ].
  apply quoteLoop_Ok in Hloop as (pre & q & post & Hcands & -> & Hpre & Hq).
  rewrite Hcands. apply quoteLoop_first_success.
  - apply supportedQuotes_SHA1_last in Hcands.
    rewrite Forall_forall in Hpre, Hcands. apply Forall_forall. intros p Hp.
    rewrite tryQuote_withAllowSHA1_other by now apply Hcands.
    now apply Hpre.
  - now apply tryQuote_withAllowSHA1_Ok.
Qed.

(** ** The candidates *)

Lemma firstQuote_None (alg : Algorithm) (quotes : list Quote) :
  firstQuote alg quotes = None <-> forall q, q ∈ quotes -> quoteAlg q <> alg.
Proof.
  unfold firstQuote. split.
  - intros Hnone q Hq Halg. apply list_elem_of_In in Hq.
    pose proof (find_none _ _ Hnone q Hq) as Hf. cbn in Hf.
    apply Z.eqb_neq in Hf. contradiction.
  - intros Hall. destruct (find _ quotes) as [q|] eqn:Hf; [ | reflexivity ].
    apply find_some in Hf as [Hin Heq]. apply Z.eqb_eq in Heq.
    apply list_elem_of_In in Hin. now destruct (Hall q Hin).
Qed.

Lemma firstQuote_head_filter (alg : Algorithm) (quotes : list Quote) :
  firstQuote alg quotes = head (List.filter (fun q => quoteAlg q =? alg) quotes).
Proof.
  unfold firstQuote. induction quotes as [|q rest IH]; cbn; [ reflexivity | ].
  now destruct (quoteAlg q =? alg).
Qed.

Lemma firstQuote_supportedQuotes (alg : Algorithm) (quotes : list Quote) :
  alg ∈ supportedHashAlgs ->
  firstQuote alg (supportedQuotes quotes) = firstQuote alg quotes.
Proof.
  intros Hin. rewrite firstQuote_head_filter, supportedQuotes_firsts.
  rewrite filter_firstQuotes by apply supportedHashAlgs_NoDup.
  rewrite bool_decide_eq_true_2 by assumption.
  now destruct (firstQuote alg quotes).
Qed.

Lemma omap_ext_elem {A B : Type} (f g : A -> option B) (l : list A) :
  (forall a, a ∈ l -> f a = g a) -> omap f l = omap g l.
Proof.
  induction l as [|a l IH]; intros Hfg; [ reflexivity | ].
  cbn [omap list_omap]. rewrite (Hfg a) by (apply elem_of_cons; now left).
  rewrite IH; [ reflexivity | ].
  intros b Hb. apply Hfg, elem_of_cons. now right.
Qed.

Lemma omap_length_le {A B : Type} (f : A -> option B) (l : list A) :
  (length (omap f l) <= length l)%nat.
Proof.
  induction l as [|a l IH]; cbn [omap list_omap length]; [ lia | ].
  destruct (f a); cbn [length]; lia.
Qed.

Lemma supportedQuotes_nil (quotes : list Quote) :
  supportedQuotes quotes = [] <->
  forall q, q ∈ quotes -> quoteAlg q ∉ supportedHashAlgs.
Proof.
  rewrite supportedQuotes_firsts. split.
  - intros Hnil q Hq Halg.
    assert (Hnone : firstQuote (quoteAlg q) quotes = None).
    { destruct (firstQuote (quoteAlg q) quotes) as [p|] eqn:Hf; [ | reflexivity ].
      assert (Hp : p ∈ omap (fun alg => firstQuote alg quotes) supportedHashAlgs).
      { apply list_elem_of_omap. eauto. }
      rewrite Hnil in Hp. now apply elem_of_nil in Hp. }
    now apply (proj1 (firstQuote_None _ _) Hnone q).
  - intros Hall.
    destruct (omap (fun alg => firstQuote alg quotes) supportedHashAlgs)
      as [|p rest] eqn:Hcands; [ reflexivity | ].
    assert (Hp : p ∈ omap (fun alg => firstQuote alg quotes) supportedHashAlgs).
    { rewrite Hcands. apply elem_of_cons. now left. }
    apply list_elem_of_omap in Hp as (alg & Halg & Hf).
    apply firstQuote_Some in Hf as [Hin <-]. now destruct (Hall p Hin).
Qed.

(** X15.  [supportedQuotes] is a projection onto at most one quote per
    supported algorithm: filtering again changes nothing, the result
    has at most four quotes with pairwise different algorithms, each of
    them a quote of the input, and it is empty exactly when no input
    quote has a supported algorithm. *)
Theorem supportedQuotes_idempotent (quotes : list Quote) :
  supportedQuotes (supportedQuotes quotes) = supportedQuotes quotes
  /\ (length (supportedQuotes quotes) <= 4)%nat
  /\ NoDup (quoteAlg <$> supportedQuotes quotes)
  /\ supportedQuotes quotes ⊆ quotes
  /\ (supportedQuotes quotes = [] <->
      forall q, q ∈ quotes -> quoteAlg q ∉ supportedHashAlgs).
Proof.
  split; [ | split; [ | split; [ | split ] ] ].
  - rewrite (supportedQuotes_firsts (supportedQuotes quotes)).
    etransitivity; [ | symmetry; apply supportedQuotes_firsts ].
    apply omap_ext_elem. intros alg Halg. now apply firstQuote_supportedQuotes.
  - rewrite supportedQuotes_firsts.
    apply (omap_length_le (fun alg => firstQuote alg quotes) supportedHashAlgs).
  - rewrite supportedQuotes_firsts.
    pose proof supportedHashAlgs_NoDup as Hnd.
    induction Hnd as [|alg algs Hnotin Hnd IH]; cbn [omap list_omap];
      [ constructor | ].
    destruct (firstQuote alg quotes) as [q|] eqn:Hf; [ | exact IH ].
    cbn [fmap list_fmap]. constructor; [ | exact IH ].
    apply firstQuote_Some in Hf as [_ Hq]. rewrite Hq.
    intros Hin. apply list_elem_of_fmap in Hin as (p & Hp & Hin).
    apply list_elem_of_omap in Hin as (a & Ha & Hfa).
    apply firstQuote_Some in Hfa as [_ Hpa]. congruence.
  - intros q Hq. apply supportedQuotes_elem in Hq as [_ Hf].
    now apply firstQuote_Some in Hf.
  - apply supportedQuotes_nil.
Qed.

(** ** Failures *)

Lemma quoteLoop_Err_all (attestation : Attestation) (opts : VerifyOpts)
    (akPubKey : PublicKey) (quotes tried : list Quote)
    (lastErr : option VerifyError) (e : VerifyError) :
  quoteLoop attestation opts akPubKey quotes lastErr = (tried, Err e) ->
  Forall (fun p => exists e', tryQuote attestation opts akPubKey p = Err e') quotes.
Proof.
  revert tried lastErr. induction quotes as [|q rest IH]; intros tried lastErr; cbn.
  - constructor.
  - destruct (tryQuote attestation opts akPubKey q) as [m0 | e0] eqn:Hq;
      [ discriminate | ].
    destruct (quoteLoop attestation opts akPubKey rest (Some e0)) as [tried' r]
      eqn:Hrest.
    intros [= <- ->]. constructor; eauto.
Qed.

(** X16.  "attestation does not contain a supported quote" is returned exactly
    when the AK passed every check and no quote of the attestation has a
    supported PCR hash algorithm; no quote is tried then. *)
Theorem VerifyAttestation_no_supported_quote (attestation : Attestation)
    (opts : VerifyOpts) (tried : list Quote) :
  VerifyAttestation attestation opts = (tried, Err ErrNoSupportedQuote) <->
  tried = []
  /\ (exists akPubArea akPubKey signHashAlg,
        akChecksPass attestation opts akPubArea akPubKey signHashAlg)
  /\ (forall q, q ∈ Quotes attestation -> quoteAlg q ∉ supportedHashAlgs).
Proof.
  split.
  - intros Hva.
    destruct (VerifyAttestation_past_checks _ _ _ _ Hva)
      as [(_ & Herr) | (area & key & alg & Hchecks & Hloop)].
    { destruct Herr
        as [(? & [=]) | [(? & [=]) | [(? & [=]) | [(? & [=]) | (? & [=])]]]]. }
    apply quoteLoop_Err in Hloop
      as [-> [[_ [=]] | [(Hnil & _ & _) | (init & q & _ & Hq)]]].
    + split; [ assumption | ]. split; [ eauto | ]. now apply supportedQuotes_nil.
    + apply tryQuote_Err in Hq
        as [(? & _ & [=]) | [(? & _ & [=]) | [(? & _ & [=]) | (? & _ & [=])]]].
  - intros (-> & (area & key & alg & Hdec & Hkey & Htrust & Hsign & Halg) & Hnone).
    rewrite (VerifyAttestation_loop attestation opts area key alg) by assumption.
    apply supportedQuotes_nil in Hnone. now rewrite Hnone.
Qed.

(** X17.  A failure is either one of the five errors of the AK checks, with no
    quote tried, or it comes after every candidate quote was tried and
    failed, and is then the error of the last candidate (or the
    no-supported-quote error when there was none). *)
Theorem VerifyAttestation_failure_exhausts_candidates (attestation : Attestation)
    (opts : VerifyOpts) (tried : list Quote) (e : VerifyError) :
  VerifyAttestation attestation opts = (tried, Err e) ->
  (tried = []
   /\ ((exists err, e = ErrDecodeAKPublicArea err)
       \/ (exists err, e = ErrGetAKPublicKey err)
       \/ (exists err, e = ErrUntrustedAK err)
       \/ (exists err, e = ErrBadAKPublicArea err)
       \/ (exists err, e = ErrInAKPublicArea err)))
  \/ exists akPubArea akPubKey signHashAlg,
      akChecksPass attestation opts akPubArea akPubKey signHashAlg
      /\ tried = supportedQuotes (Quotes attestation)
      /\ Forall (fun p => exists e', tryQuote attestation opts akPubKey p = Err e')
           tried
      /\ ((tried = [] /\ e = ErrNoSupportedQuote)
          \/ exists init q, tried = init ++ [q]
                            /\ tryQuote attestation opts akPubKey q = Err e).
Proof.
  intros Hva.
  destruct (VerifyAttestation_past_checks _ _ _ _ Hva)
    as [(-> & Herr) | (area & key & alg & Hchecks & Hloop)].
  - left. split; [ reflexivity | ].
    destruct Herr as [(x & [= ->]) | [(x & [= ->]) | [(x & [= ->])
                     | [(x & [= ->]) | (x & [= ->])]]]]; eauto 10.
  - right. exists area, key, alg. split; [ assumption | ].
    pose proof (quoteLoop_Err_all _ _ _ _ _ _ _ Hloop) as Hall.
    apply quoteLoop_Err in Hloop
      as [-> [[_ [=]] | [(Hnil & _ & ->) | (init & q & Hcands & Hq)]]].
    + repeat split; auto.
    + repeat split; eauto.
Qed.

End VerifyMore.

(** ** The theorems above on the small instance *)

#[local] Existing Instance ToyDeps.

Lemma VerifyAttestation_sound_witness :
  exists akPubArea akPubKey signHashAlg pre quote state celState,
    DecodePublic (Deps := ToyDeps) (AkPub (toy_attestation [quoteSHA1; quoteSHA256']))
      = Ok akPubArea
    /\ Public_Key akPubArea = Ok akPubKey
    /\ (spec_AK_listed (toy_opts true) akPubKey
        \/ AkCert (toy_attestation [quoteSHA1; quoteSHA256']) <> []
           /\ spec_AK_certified (toy_opts true)
                (AkCert (toy_attestation [quoteSHA1; quoteSHA256'])))
    /\ GetSigningHashAlg akPubArea = Ok signHashAlg
    /\ signHashAlg ∈ supportedHashAlgs
    /\ (signHashAlg = AlgSHA1 -> AllowSHA1 (toy_opts true) = true)
    /\ [quoteSHA256'; quoteSHA1] = pre ++ [quote]
    /\ Forall (fun p => exists e,
                 tryQuote (D := ToyDeps) (toy_attestation [quoteSHA1; quoteSHA256'])
                   (toy_opts true) akPubKey p = Err e) pre
    /\ quote ∈ Quotes (toy_attestation [quoteSHA1; quoteSHA256'])
    /\ VerifyQuote quote akPubKey (Nonce (toy_opts true)) = None
    /\ quoteAlg quote ∈ supportedHashAlgs
    /\ (quoteAlg quote = AlgSHA1 -> AllowSHA1 (toy_opts true) = true)
    /\ parsePCClientEventLog (EventLog (toy_attestation [quoteSHA1; quoteSHA256']))
         (Quote_GetPcrs quote) = Ok state
    /\ parseCanonicalEventLog
         (CanonicalEventLog (toy_attestation [quoteSHA1; quoteSHA256']))
         (Quote_GetPcrs quote) = Ok celState
    /\ proto_Merge (<[ [4] := Scalar [x0c] ]> {[ [7; 1] := Scalar [x0c] ]})
         (<[ [4] := Scalar [x0a] ]> {[ [3] := Repeated [[x0a]] ]})
       = proto_Merge celState state.
Proof.
  exact (VerifyAttestation_sound (D := ToyDeps)
           (toy_attestation [quoteSHA1; quoteSHA256']) (toy_opts true)
           [quoteSHA256'; quoteSHA1] _ eq_refl).
Defined.

Lemma VerifyAttestation_success_survives_AllowSHA1_witness :
  VerifyAttestation (D := ToyDeps) (toy_attestation [quoteSHA1; quoteSHA256])
    (withAllowSHA1 (toy_opts false))
  = ([quoteSHA256],
     Ok (proto_Merge (<[ [4] := Scalar [x0c] ]> {[ [7; 1] := Scalar [x0c] ]})
           (<[ [4] := Scalar [x0a] ]> {[ [3] := Repeated [[x0a]] ]}))).
Proof.
  exact (VerifyAttestation_success_survives_AllowSHA1 (D := ToyDeps)
           (toy_attestation [quoteSHA1; quoteSHA256]) (toy_opts false)
           [quoteSHA256] _ eq_refl).
Defined.

Lemma VerifyAttestation_failure_exhausts_candidates_witness :
  ([quoteSHA256'; quoteSHA1] = []
   /\ ((exists err, ErrWhenVerifyingPCRs ErrSHA1NotAllowed = ErrDecodeAKPublicArea err)
       \/ (exists err, ErrWhenVerifyingPCRs ErrSHA1NotAllowed = ErrGetAKPublicKey err)
       \/ (exists err, ErrWhenVerifyingPCRs ErrSHA1NotAllowed = ErrUntrustedAK err)
       \/ (exists err, ErrWhenVerifyingPCRs ErrSHA1NotAllowed = ErrBadAKPublicArea err)
       \/ (exists err, ErrWhenVerifyingPCRs ErrSHA1NotAllowed = ErrInAKPublicArea err)))
  \/ exists akPubArea akPubKey signHashAlg,
      akChecksPass (D := ToyDeps) (toy_attestation [quoteSHA1; quoteSHA256'])
        (toy_opts false) akPubArea akPubKey signHashAlg
      /\ [quoteSHA256'; quoteSHA1]
         = supportedQuotes (Quotes (toy_attestation [quoteSHA1; quoteSHA256']))
      /\ Forall (fun p => exists e',
                   tryQuote (D := ToyDeps) (toy_attestation [quoteSHA1; quoteSHA256'])
                     (toy_opts false) akPubKey p = Err e')
           [quoteSHA256'; quoteSHA1]
      /\ (([quoteSHA256'; quoteSHA1] = []
           /\ ErrWhenVerifyingPCRs ErrSHA1NotAllowed = ErrNoSupportedQuote)
          \/ exists init q,
              [quoteSHA256'; quoteSHA1] = init ++ [q]
              /\ tryQuote (D := ToyDeps) (toy_attestation [quoteSHA1; quoteSHA256'])
                   (toy_opts false) akPubKey q
                 = Err (ErrWhenVerifyingPCRs ErrSHA1NotAllowed)).
Proof.
  exact (VerifyAttestation_failure_exhausts_candidates (D := ToyDeps)
           (toy_attestation [quoteSHA1; quoteSHA256']) (toy_opts false)
           [quoteSHA256'; quoteSHA1] _ eq_refl).
Defined.

End ServerProofs.
